(** * Mondrian synchronisation: seeded generator, partitioner, renderer,
      broadcast scheduler and clock estimator

    A shallow embedding of the TypeScript sources

      - [shared/seededRandom.ts]: class [SeededRandom];
      - [shared/types.ts]: [Block], [GenerationParams], the events;
      - the shared generation module (it imports ["./seededRandom"] and
        ["./types"]): [generateBlocks], [drawComposition],
        [generateMondrianComposition], [generateRandomParams];
      - the synchronisation server: the [/health] handler, the
        connection handlers, [generateAndBroadcast] and its scheduler;
      - [src/web/socket.ts]: class [MondrianSocketClient].

    Numbers.  A JavaScript [number] that the program only ever uses as an
    integer (the generator state, block coordinates, recursion depths,
    millisecond timestamps) is a [Z].  The value returned by
    [SeededRandom.next] is the fraction [state / 233280]; it and everything
    computed from it is an exact rational [Q], so [Math.floor] is [Qfloor]
    and the literals [0.2], [0.3], [0.4] are the rationals [1/5], [3/10],
    [2/5].  The rounding of IEEE doubles is not part of the model, with
    one exception: module [Double] evaluates in binary64 the three
    expressions of the source that depend on nothing but the generator
    state, and [double_agrees] checks them against the rational model on
    every one of the 233280 states.

    Effects.  The generator is a mutable object; it is threaded explicitly:
    a method returns its result together with the object after the call.
    The record carries one ghost field, [draws], counting the calls of
    [next] made so far; no definition ever reads it to decide anything
    (see [next_erase] and [generateBlocks_erase]). *)

From Stdlib Require Import ZArith QArith Qround List Bool Lia Lqa.
From Stdlib Require Import PrimFloat Uint63.
From stdpp Require Import gmap strings.
From Equations Require Import Equations.
Import ListNotations.

#[local] Open Scope Z_scope.

(** ** Rational comparison as a boolean *)

Definition Qltb (a b : Q) : bool := negb (Qle_bool b a).

(** ** shared/seededRandom.ts *)

Module Rng.

(** [private seed: number], and the ghost counter of [next()] calls. *)
Record SeededRandom : Type := mkSeededRandom { seed : Z; draws : nat }.

(** [constructor(seed)]: JavaScript's [%] truncates towards zero and takes
    the sign of the dividend, which is [Z.rem]. *)
Definition new (s : Z) : SeededRandom :=
  let s0 := Z.rem s 233280 in
  {| seed := if s0 <=? 0 then s0 + 233280 else s0; draws := 0 |}.

(** [next()] *)
Definition next (g : SeededRandom) : Q * SeededRandom :=
  let s' := Z.rem (seed g * 9301 + 49297) 233280 in
  (s' # 233280, {| seed := s'; draws := S (draws g) |}).

(** [nextInt(min, max)] *)
Definition nextInt (min max : Z) (g : SeededRandom) : Z * SeededRandom :=
  let (r, g') := next g in
  (Qfloor (r * inject_Z (max - min + 1)) + min, g').

(** [nextFloat(min, max)] *)
Definition nextFloat (min max : Q) (g : SeededRandom) : Q * SeededRandom :=
  let (r, g') := next g in
  ((r * (max - min) + min)%Q, g').

(** [getSeed()] *)
Definition getSeed (g : SeededRandom) : Z := seed g.

(** The states a constructed generator can be in: the constructor leaves
    [seed] in [(0, 233280]], and every [next] in [[0, 233280)]. *)
Definition valid (g : SeededRandom) : Prop := 0 <= seed g <= 233280.

(** The generator after [n] further calls of [next]. *)
Fixpoint advance (n : nat) (g : SeededRandom) : SeededRandom :=
  match n with
  | O => g
  | S n' => advance n' (snd (next g))
  end.

(** Forgetting the ghost counter. *)
Definition erase (g : SeededRandom) : SeededRandom :=
  {| seed := seed g; draws := 0 |}.

(** A client of the class: one method call, and a straight-line run of
    calls on one instance.  Every method returns a [number]. *)
Inductive Call : Type :=
| CallNext
| CallNextInt (min max : Z)
| CallNextFloat (min max : Q).

Definition invoke (c : Call) (g : SeededRandom) : Q * SeededRandom :=
  match c with
  | CallNext => next g
  | CallNextInt min max => let (n, g') := nextInt min max g in (inject_Z n, g')
  | CallNextFloat min max => nextFloat min max g
  end.

Fixpoint run (calls : list Call) (g : SeededRandom) : list Q :=
  match calls with
  | [] => []
  | c :: rest => let (out, g') := invoke c g in out :: run rest g'
  end.

(** Two instances alive in one program.  A schedule says which instance
    receives which call, in program order; the heap holds the two objects,
    which share nothing. *)
Inductive Instance : Type := Gen1 | Gen2.

Definition same_instance (i j : Instance) : bool :=
  match i, j with
  | Gen1, Gen1 | Gen2, Gen2 => true
  | _, _ => false
  end.

Fixpoint exec (schedule : list (Instance * Call))
         (heap : SeededRandom * SeededRandom) : list (Instance * Q) :=
  match schedule with
  | [] => []
  | (Gen1, c) :: rest =>
      let (out, g') := invoke c (fst heap) in
      (Gen1, out) :: exec rest (g', snd heap)
  | (Gen2, c) :: rest =>
      let (out, g') := invoke c (snd heap) in
      (Gen2, out) :: exec rest (fst heap, g')
  end.

(** What one instance was asked, and what it answered. *)
Definition project {A : Type} (i : Instance) (l : list (Instance * A)) : list A :=
  map snd (List.filter (fun e => same_instance i (fst e)) l).

End Rng.

Import Rng.

(** ** shared/types.ts *)

Record Block : Type := mkBlock { x : Z; y : Z; width : Z; height : Z }.

(** ** The shared generation module: the partitioner *)

Module Partition.

Definition MIN_BLOCK_SIZE : Z := 150.

(** [Math.floor(origin + extent * (r * 0.4 + 0.3))] *)
Definition splitAt (origin extent : Z) (r : Q) : Z :=
  Qfloor (inject_Z origin + inject_Z extent * (r * (4 # 10) + (3 # 10)))%Q.

Equations? generateBlocks (block : Block) (depth maxDepth : Z)
    (rng : SeededRandom) : list Block * SeededRandom
    by wf (Z.to_nat (maxDepth - depth)) lt :=
  generateBlocks block depth maxDepth rng with Z_ge_lt_dec depth maxDepth := {
    | left _ => ([block], rng)
    | right _ =>
      if (width block <? MIN_BLOCK_SIZE) && (height block <? MIN_BLOCK_SIZE)
      then ([block], rng)
      else
        let (r, rng1) := next rng in
        if Qltb r (2 # 10) && (depth >? 0) then ([block], rng1)
        else
          let splitHorizontally := height block >? width block in
          let splitVertically := width block >? height block in
          if splitHorizontally && (height block >? MIN_BLOCK_SIZE) then
            let (r', rng2) := next rng1 in
            let splitPoint := splitAt (y block) (height block) r' in
            let blockA := {| x := x block; y := y block;
                             width := width block;
                             height := splitPoint - y block |} in
            let blockB := {| x := x block; y := splitPoint;
                             width := width block;
                             height := y block + height block - splitPoint |} in
            let (front, rng3) := generateBlocks blockA (depth + 1) maxDepth rng2 in
            let (back, rng4) := generateBlocks blockB (depth + 1) maxDepth rng3 in
            (front ++ back, rng4)
          else if splitVertically && (width block >? MIN_BLOCK_SIZE) then
            let (r', rng2) := next rng1 in
            let splitPoint := splitAt (x block) (width block) r' in
            let blockA := {| x := x block; y := y block;
                             width := splitPoint - x block;
                             height := height block |} in
            let blockB := {| x := splitPoint; y := y block;
                             width := x block + width block - splitPoint;
                             height := height block |} in
            let (front, rng3) := generateBlocks blockA (depth + 1) maxDepth rng2 in
            let (back, rng4) := generateBlocks blockB (depth + 1) maxDepth rng3 in
            (front ++ back, rng4)
          else ([block], rng1)
  }.
Proof. all: lia. Qed.

(** One activation of [generateBlocks] below the depth check, cut in two
    at the point where the early-stop test has been decided, with the
    recursive calls [rec] and the terminal result [leaf] left open.
    [generateBlocks] is this with [leaf b = [b]] (lemma
    [generateBlocks_eq]); the open form is what the traced variant below
    and the statements about a single activation use. *)
Section Activation.
Context {A : Type} (leaf : Block -> list A)
        (rec : Block -> SeededRandom -> list A * SeededRandom).

(** Lines 36-86: the choice of the axis and the split. *)
Definition subdivide (block : Block) (rng1 : SeededRandom)
  : list A * SeededRandom :=
  let splitHorizontally := height block >? width block in
  let splitVertically := width block >? height block in
  if splitHorizontally && (height block >? MIN_BLOCK_SIZE) then
    let (r', rng2) := next rng1 in
    let splitPoint := splitAt (y block) (height block) r' in
    let blockA := {| x := x block; y := y block;
                     width := width block;
                     height := splitPoint - y block |} in
    let blockB := {| x := x block; y := splitPoint;
                     width := width block;
                     height := y block + height block - splitPoint |} in
    let (front, rng3) := rec blockA rng2 in
    let (back, rng4) := rec blockB rng3 in
    (front ++ back, rng4)
  else if splitVertically && (width block >? MIN_BLOCK_SIZE) then
    let (r', rng2) := next rng1 in
    let splitPoint := splitAt (x block) (width block) r' in
    let blockA := {| x := x block; y := y block;
                     width := splitPoint - x block;
                     height := height block |} in
    let blockB := {| x := splitPoint; y := y block;
                     width := x block + width block - splitPoint;
                     height := height block |} in
    let (front, rng3) := rec blockA rng2 in
    let (back, rng4) := rec blockB rng3 in
    (front ++ back, rng4)
  else (leaf block, rng1).

(** Lines 29-86: the early-stop test, then [subdivide]. *)
Definition visit (block : Block) (depth : Z) (rng : SeededRandom)
  : list A * SeededRandom :=
  if (width block <? MIN_BLOCK_SIZE) && (height block <? MIN_BLOCK_SIZE)
  then (leaf block, rng)
  else
    let (r, rng1) := next rng in
    if Qltb r (2 # 10) && (depth >? 0) then (leaf block, rng1)
    else subdivide block rng1.
End Activation.

(** [generateBlocks] with every returned block tagged by the depth of the
    activation that returned it (a ghost trace of the recursion; lemma
    [generateBlocksTraced_erase] relates it to [generateBlocks]). *)
Equations? generateBlocksTraced (block : Block) (depth maxDepth : Z)
    (rng : SeededRandom) : list (Block * Z) * SeededRandom
    by wf (Z.to_nat (maxDepth - depth)) lt :=
  generateBlocksTraced block depth maxDepth rng
    with Z_ge_lt_dec depth maxDepth := {
    | left _ => ([(block, depth)], rng)
    | right _ =>
      visit (fun b => [(b, depth)])
            (fun b g => generateBlocksTraced b (depth + 1) maxDepth g)
            block depth rng
  }.
Proof. all: lia. Qed.

End Partition.

(** ** The shared generation module: the renderer *)

Module Render.

Definition PRIMARY_COLORS : list string :=
  ["#FF0000"; "#0000FF"; "#FFFF00"]%string.
Definition BACKGROUND_COLOR : string := "#FFFFFF"%string.

(** What reaches the drawing surface: each [fillRect] with the fill style
    in force, each [strokeRect] with the stroke settings in force. *)
Inductive Op : Type :=
| FillRect (style : string) (bx byy bw bh : Z)
| StrokeRect (style : string) (lineWidth : Z) (cap join : string)
             (bx byy bw bh : Z).

(** The part of [CanvasRenderingContext2D] the module touches. *)
Record Context2D : Type := mkContext2D {
  fillStyle : string;
  strokeStyle : string;
  lineWidth : Z;
  lineCap : string;
  lineJoin : string;
  ops : list Op
}.

(** [ctx.fillStyle = v]; an assignment of [undefined] (an index outside
    the palette) is ignored by the canvas. *)
Definition setFillStyle (v : option string) (ctx : Context2D) : Context2D :=
  match v with
  | Some c =>
      {| fillStyle := c; strokeStyle := strokeStyle ctx;
         lineWidth := lineWidth ctx; lineCap := lineCap ctx;
         lineJoin := lineJoin ctx; ops := ops ctx |}
  | None => ctx
  end.

Definition setStroke (style : string) (w : Z) (cap join : string)
           (ctx : Context2D) : Context2D :=
  {| fillStyle := fillStyle ctx; strokeStyle := style; lineWidth := w;
     lineCap := cap; lineJoin := join; ops := ops ctx |}.

Definition emit (o : Op) (ctx : Context2D) : Context2D :=
  {| fillStyle := fillStyle ctx; strokeStyle := strokeStyle ctx;
     lineWidth := lineWidth ctx; lineCap := lineCap ctx;
     lineJoin := lineJoin ctx; ops := ops ctx ++ [o] |}.

Definition fillRect (bx byy bw bh : Z) (ctx : Context2D) : Context2D :=
  emit (FillRect (fillStyle ctx) bx byy bw bh) ctx.

Definition strokeRect (bx byy bw bh : Z) (ctx : Context2D) : Context2D :=
  emit (StrokeRect (strokeStyle ctx) (lineWidth ctx) (lineCap ctx)
                   (lineJoin ctx) bx byy bw bh) ctx.

(** [PRIMARY_COLORS[colorIndex]] *)
Definition palette (colorIndex : Z) : option string :=
  if colorIndex <? 0 then None
  else nth_error PRIMARY_COLORS (Z.to_nat colorIndex).

(** The first loop of [drawComposition]: [for (const block of blocks)]. *)
Fixpoint fillBlocks (blocks : list Block) (colorChance : Q)
         (ctx : Context2D) (rng : SeededRandom) : Context2D * SeededRandom :=
  match blocks with
  | [] => (ctx, rng)
  | block :: rest =>
      let (r, rng1) := next rng in
      let (ctx1, rng2) :=
        if Qltb r colorChance then
          let (r', rng2) := next rng1 in
          let colorIndex :=
            Qfloor (r' * inject_Z (Z.of_nat (length PRIMARY_COLORS))) in
          (setFillStyle (palette colorIndex) ctx, rng2)
        else (setFillStyle (Some BACKGROUND_COLOR) ctx, rng1) in
      fillBlocks rest colorChance
        (fillRect (x block) (y block) (width block) (height block) ctx1) rng2
  end.

(** The second loop. *)
Fixpoint strokeBlocks (blocks : list Block) (ctx : Context2D) : Context2D :=
  match blocks with
  | [] => ctx
  | block :: rest =>
      strokeBlocks rest
        (strokeRect (x block) (y block) (width block) (height block) ctx)
  end.

Definition drawComposition (ctx : Context2D) (blocks : list Block)
           (colorChance : Q) (lineWeight : Z) (rng : SeededRandom)
  : Context2D * SeededRandom :=
  let (ctx1, rng1) := fillBlocks blocks colorChance ctx rng in
  let ctx2 := setStroke "#000000" lineWeight "butt" "miter" ctx1 in
  (strokeBlocks blocks ctx2, rng1).

(** [GenerationParams] of shared/types.ts; its [width] and [height] are
    [gwidth] and [gheight] here, the plain names being those of [Block]. *)
Record GenerationParams : Type := mkGenerationParams {
  seed : Z;
  depth : Z;
  colorChance : Q;
  lineWeight : Z;
  gwidth : Z;
  gheight : Z
}.

Definition generateMondrianComposition (ctx : Context2D)
           (params : GenerationParams) : Context2D * SeededRandom :=
  let rng := Rng.new (seed params) in
  let ctx1 :=
    fillRect 0 0 (gwidth params) (gheight params)
             (setFillStyle (Some BACKGROUND_COLOR) ctx) in
  let initialBlock := {| x := 0; y := 0; width := gwidth params;
                         height := gheight params |} in
  let (finalBlocks, rng1) :=
    Partition.generateBlocks initialBlock 0 (depth params) rng in
  drawComposition ctx1 finalBlocks (colorChance params) (lineWeight params) rng1.

End Render.

(** ** The same expressions in binary64 *)

Module Double.

#[local] Set Warnings "-inexact-float".

(** An integer below 2^53 as a double (exact). *)
Definition ofZ (n : Z) : float := PrimFloat.of_uint63 (Uint63.of_Z n).

(** [this.seed / 233280], for the state [s] that [next] has just stored. *)
Definition next (s : Z) : float := (ofZ s / ofZ 233280)%float.

(** [rng.next() < 0.2] *)
Definition stop (s : Z) : bool := PrimFloat.ltb (next s) 0.2.

(** [Math.floor] of a double in [[0, 3)]. *)
Definition floor3 (v : float) : option Z :=
  if PrimFloat.ltb v 0 then None
  else if PrimFloat.ltb v 1 then Some 0
  else if PrimFloat.ltb v 2 then Some 1
  else if PrimFloat.ltb v 3 then Some 2
  else None.

(** [Math.floor(rng.next() * PRIMARY_COLORS.length)] *)
Definition colorIndex (s : Z) : option Z := floor3 (next s * 3)%float.

(** [rng.next() * 0.4 + 0.3] *)
Definition fraction (s : Z) : float := (next s * 0.4 + 0.3)%float.

(** The fraction is a double in [[0.3, 0.7)]. *)
Definition fractionInRange (s : Z) : bool :=
  PrimFloat.leb 0.3 (fraction s) && PrimFloat.ltb (fraction s) 0.7.

(** The three agree with the rational model at state [s]. *)
Definition agree (s : Z) : bool :=
  Bool.eqb (stop s) (s <? 46656) &&
  match colorIndex s with
  | Some i => i =? (if s <? 77760 then 0 else if s <? 155520 then 1 else 2)
  | None => false
  end &&
  fractionInRange s.

Fixpoint all_from (fuel : nat) (z : Z) (p : Z -> bool) : bool :=
  match fuel with
  | O => true
  | S k => p z && all_from k (z + 1) p
  end.

End Double.

(** ** [generateRandomParams], and the synchronisation server *)

Module Server.

Definition GENERATION_INTERVAL : Z := 5000.
Definition CANVAS_WIDTH : Z := 1920.
Definition CANVAS_HEIGHT : Z := 1080.

(** The value type of the [connectedClients] map. *)
Record ClientInfo : Type := mkClientInfo { id : string; connectedAt : Z }.

(** shared/types.ts, server to client. *)
Inductive ServerEvent : Type :=
| WelcomeEvent (clientId : string) (serverTime : Z)
| GenerationEvent (timestamp seed depth : Z) (colorChance : Q)
                  (lineWeight duration : Z)
| AudioEvent (timestamp : Z) (frequencies : list Q) (duration : Z)
| SyncEvent (serverTime clientTime : Z)
| UserCountEvent (count : nat).

(** [io.emit] reaches every socket, [socket.emit] one. *)
Inductive Emission : Type :=
| IoEmit (e : ServerEvent)
| SocketEmit (socketId : string) (e : ServerEvent).

(** The lines written with [console.log], by their arguments. *)
Inductive LogLine : Type :=
| LogConnected (socketId : string)
| LogJoined (socketId : string) (userAgent : option string)
| LogDisconnected (socketId : string)
| LogGenerated (seed depth : Z) (clients : nat)
| LogAudio (rounded : list Z).

(** The surroundings: the successive results of [Math.random()] and of
    [Date.now()]. *)
Record Env : Type := mkEnv { randomAt : nat -> Q; nowAt : nat -> Z }.

(** Everything a handler can change: the registry, what was sent, what
    was logged, and how far the two sources above have been read. *)
Record State : Type := mkState {
  connectedClients : gmap string ClientInfo;
  emitted : list Emission;
  console : list LogLine;
  randomCalls : nat;
  nowCalls : nat
}.

Definition initial : State :=
  {| connectedClients := ∅; emitted := []; console := [];
     randomCalls := 0; nowCalls := 0 |}.

(** Handlers run to completion on one event loop: a state monad. *)
Definition M (A : Type) : Type := State -> A * State.
Definition ret {A : Type} (a : A) : M A := fun st => (a, st).
Definition bind {A B : Type} (m : M A) (k : A -> M B) : M B :=
  fun st => let (a, st') := m st in k a st'.

#[local] Notation "x <- m ;; k" := (bind m (fun x => k))
  (at level 100, m at next level, right associativity).
#[local] Notation "m ;;; k" := (bind m (fun _ => k))
  (at level 100, right associativity).

Section Handlers.
Variable env : Env.

Definition Math_random : M Q := fun st =>
  (randomAt env (randomCalls st),
   {| connectedClients := connectedClients st; emitted := emitted st;
      console := console st; randomCalls := S (randomCalls st);
      nowCalls := nowCalls st |}).

Definition Date_now : M Z := fun st =>
  (nowAt env (nowCalls st),
   {| connectedClients := connectedClients st; emitted := emitted st;
      console := console st; randomCalls := randomCalls st;
      nowCalls := S (nowCalls st) |}).

Definition send (e : Emission) : M unit := fun st =>
  (tt,
   {| connectedClients := connectedClients st;
      emitted := emitted st ++ [e];
      console := console st; randomCalls := randomCalls st;
      nowCalls := nowCalls st |}).

Definition console_log (l : LogLine) : M unit := fun st =>
  (tt,
   {| connectedClients := connectedClients st; emitted := emitted st;
      console := console st ++ [l]; randomCalls := randomCalls st;
      nowCalls := nowCalls st |}).

Definition clients_size : M nat := fun st => (size (connectedClients st), st).

Definition update_clients
           (f : gmap string ClientInfo -> gmap string ClientInfo) : M unit :=
  fun st =>
  (tt,
   {| connectedClients := f (connectedClients st); emitted := emitted st;
      console := console st; randomCalls := randomCalls st;
      nowCalls := nowCalls st |}).

(** [Math.round] *)
Definition Math_round (q : Q) : Z := Qfloor (q + (1 # 2))%Q.

(** [generateRandomParams] of the shared module: depth, colorChance,
    lineWeight, in the order of the object literal. *)
Definition generateRandomParams (w h : Z) : M (Z * Q * Z) :=
  r1 <- Math_random ;;
  r2 <- Math_random ;;
  r3 <- Math_random ;;
  ret (Qfloor (r1 * 3)%Q + 4, (r2 * (2 # 10) + (2 # 10))%Q,
       Qfloor (r3 * 19)%Q + 12).

Definition getRandomFrequency : M Q :=
  r <- Math_random ;;
  ret (r * inject_Z (880 - 220) + 220)%Q.

Definition broadcastUserCount : M unit :=
  n <- clients_size ;;
  send (IoEmit (UserCountEvent n)).

(** [io.on("connection", ...)], up to the registration of the
    per-socket handlers. *)
Definition on_connection (socketId : string) : M unit :=
  console_log (LogConnected socketId) ;;;
  t <- Date_now ;;
  update_clients (insert socketId {| id := socketId; connectedAt := t |}) ;;;
  t' <- Date_now ;;
  send (SocketEmit socketId (WelcomeEvent socketId t')) ;;;
  broadcastUserCount.

Definition on_join (socketId : string) (userAgent : option string) : M unit :=
  console_log (LogJoined socketId userAgent).

Definition on_sync_request (socketId : string) (clientTime : Z) : M unit :=
  t <- Date_now ;;
  send (SocketEmit socketId (SyncEvent t clientTime)).

Definition on_disconnect (socketId : string) : M unit :=
  console_log (LogDisconnected socketId) ;;;
  update_clients (delete socketId) ;;;
  broadcastUserCount.

(** [generateAndBroadcast()], the body of every scheduler tick. *)
Definition generateAndBroadcast : M unit :=
  n <- clients_size ;;
  if Nat.eqb n 0 then ret tt
  else
    seed <- Date_now ;;
    params <- generateRandomParams CANVAS_WIDTH CANVAS_HEIGHT ;;
    let '(depth, colorChance, lineWeight) := params in
    timestamp <- Date_now ;;
    send (IoEmit (GenerationEvent timestamp seed depth colorChance
                                  lineWeight GENERATION_INTERVAL)) ;;;
    n' <- clients_size ;;
    console_log (LogGenerated seed depth n') ;;;
    r <- Math_random ;;
    let shouldPlayCombination := Qltb (1 # 2) r in
    frequencies <-
      (if shouldPlayCombination
       then f1 <- getRandomFrequency ;;
            f2 <- getRandomFrequency ;;
            ret [f1; f2]
       else f1 <- getRandomFrequency ;;
            ret [f1]) ;;
    timestamp' <- Date_now ;;
    send (IoEmit (AudioEvent timestamp' frequencies 5)) ;;;
    console_log (LogAudio (map Math_round frequencies)).

(** The timer callback installed by [startScheduler]. *)
Definition tick : M unit := generateAndBroadcast.
End Handlers.

(** The body handed to [res.json]: an object of strings and numbers,
    with its fields in the order they are written. *)
Inductive JsonValue : Type :=
| JString (s : string)
| JNumber (q : Q).

Definition JsonObject : Type := list (string * JsonValue).

(** [app.get("/health", ...)]; [uptime] is what [process.uptime()]
    returns when the request is served. *)
Definition health (uptime : Q) (st : State) : JsonObject :=
  [ ("status"%string, JString "ok");
    ("clients"%string,
     JNumber (inject_Z (Z.of_nat (size (connectedClients st)))));
    ("uptime"%string, JNumber uptime) ].

Definition fieldNames (j : JsonObject) : list string := map fst j.

Fixpoint field (name : string) (j : JsonObject) : option JsonValue :=
  match j with
  | [] => None
  | (k, v) :: rest => if String.eqb name k then Some v else field name rest
  end.

End Server.

(** ** src/web/socket.ts *)

Module Client.

Inductive LogLine : Type :=
| LogWelcome (clientId : string)
| LogInitialOffset (offset : Q)
| LogClockSync (offset : Q) (rtt : Z).

(** The fields of [MondrianSocketClient] the time handlers touch, and the
    console. *)
Record MondrianSocketClient : Type := mkClient {
  clientId : option string;
  clockOffset : Q;
  console : list LogLine
}.

(** The field initialisers of the class. *)
Definition create : MondrianSocketClient :=
  {| clientId := None; clockOffset := 0; console := [] |}.

(** [socket.on("welcome", ...)], run when [Date.now()] is [now]. *)
Definition on_welcome (now : Z) (id : string) (serverTime : Z)
           (c : MondrianSocketClient) : MondrianSocketClient :=
  let offset := inject_Z (serverTime - now) in
  {| clientId := Some id; clockOffset := offset;
     console := console c ++ [LogWelcome id; LogInitialOffset offset] |}.

(** [socket.on("sync", ...)], run when [Date.now()] is [now]. *)
Definition on_sync (now : Z) (serverTime clientTime : Z)
           (c : MondrianSocketClient) : MondrianSocketClient :=
  let rtt := now - clientTime in
  let offset :=
    (inject_Z serverTime - (inject_Z clientTime + inject_Z rtt / 2))%Q in
  {| clientId := clientId c; clockOffset := offset;
     console := console c ++ [LogClockSync offset rtt] |}.

(** [getServerTime()] *)
Definition getServerTime (now : Z) (c : MondrianSocketClient) : Q :=
  (inject_Z now + clockOffset c)%Q.

(** A sync response as it arrives: the local time and the two fields. *)
Record SyncArrival : Type := mkSyncArrival {
  arrivedAt : Z;
  serverTime : Z;
  clientTime : Z
}.

Definition receive (c : MondrianSocketClient) (a : SyncArrival)
  : MondrianSocketClient :=
  on_sync (arrivedAt a) (serverTime a) (clientTime a) c.

(** The offset the claim's formula gives for one arrival. *)
Definition midpoint_offset (a : SyncArrival) : Q :=
  (inject_Z (serverTime a)
   - (inject_Z (clientTime a)
      + inject_Z (arrivedAt a - clientTime a) / 2))%Q.

End Client.

(** ** What the specification asks, as predicates on the model *)

(** The pixel [(px, py)] lies in the block: blocks are half-open, as
    [fillRect] paints them. *)
Definition covers (b : Block) (px py : Z) : Prop :=
  x b <= px < x b + width b /\ y b <= py < y b + height b.

Definition overlap (a b : Block) : Prop :=
  exists px py, covers a px py /\ covers b px py.

(** [bs] tiles [r]: the pixels of [r] are exactly the pixels of the blocks
    of [bs], and no two entries of [bs] share a pixel. *)
Definition tiles (bs : list Block) (r : Block) : Prop :=
  (forall px py, covers r px py <-> exists b, In b bs /\ covers b px py) /\
  ForallOrdPairs (fun a b => ~ overlap a b) bs.

(** The fills the renderer is asked to make for [blocks], in list order,
    from generator state [g] to [g']: a block whose first draw is below
    [colorChance] takes a second draw, which picks the palette entry; any
    other block takes no second draw and is white. *)
Inductive Fills (colorChance : Q)
  : list Block -> SeededRandom -> list Render.Op -> SeededRandom -> Prop :=
| Fills_nil g : Fills colorChance [] g [] g
| Fills_colored b bs g r1 g1 r2 g2 c fills g' :
    next g = (r1, g1) -> (r1 < colorChance)%Q ->
    next g1 = (r2, g2) ->
    Render.palette (Qfloor (r2 * 3)%Q) = Some c ->
    Fills colorChance bs g2 fills g' ->
    Fills colorChance (b :: bs) g
          (Render.FillRect c (x b) (y b) (width b) (height b) :: fills) g'
| Fills_white b bs g r1 g1 fills g' :
    next g = (r1, g1) -> (colorChance <= r1)%Q ->
    Fills colorChance bs g1 fills g' ->
    Fills colorChance (b :: bs) g
          (Render.FillRect Render.BACKGROUND_COLOR
                           (x b) (y b) (width b) (height b) :: fills) g'.

Definition is_colored (o : Render.Op) : bool :=
  match o with
  | Render.FillRect style _ _ _ _ => negb (String.eqb style Render.BACKGROUND_COLOR)
  | _ => false
  end.

(** The number of fills that are not white. *)
Definition colored (fills : list Render.Op) : nat :=
  length (List.filter is_colored fills).

(** The tie-break of the specification, for one call: on a square block
    above the minimum, below the depth limit and not stopped early, a
    further draw picks the axis and the block is split, so the call makes
    at least two draws (the stop test, then the axis) and returns at least
    two blocks. *)
Definition tie_break_as_specified (block : Block) (depth maxDepth : Z)
           (rng : SeededRandom) : Prop :=
  width block = height block ->
  Partition.MIN_BLOCK_SIZE < width block ->
  depth < maxDepth ->
  Qltb (fst (next rng)) (2 # 10) && (depth >? 0) = false ->
  let result := Partition.generateBlocks block depth maxDepth rng in
  (draws rng + 2 <= draws (snd result))%nat /\
  (2 <= length (fst result))%nat.

(** The health body of the specification: three fields, [status],
    [clients] and [uptimeSeconds]. *)
Definition health_as_specified (uptime : Q) (st : Server.State) : Prop :=
  let body := Server.health uptime st in
  length body = 3%nat /\
  Server.field "status" body = Some (Server.JString "ok") /\
  Server.field "clients" body =
    Some (Server.JNumber (inject_Z (Z.of_nat (size (Server.connectedClients st))))) /\
  Server.field "uptimeSeconds" body = Some (Server.JNumber uptime).

(** ** More of the generator: the state transition on its own *)

Module Period.

(** The new state [next] stores, as a function of the old one. *)
Definition lcg (s : Z) : Z := Z.rem (s * 9301 + 49297) 233280.

(** [n] transitions from state [s]. *)
Fixpoint iter (n : nat) (s : Z) : Z :=
  match n with
  | O => s
  | S k => iter k (lcg s)
  end.

(** Walks [fuel] transitions from [s]; [None] as soon as state 0 is met,
    otherwise the state reached. *)
Fixpoint orbit_clear (fuel : nat) (s : Z) : option Z :=
  match fuel with
  | O => Some s
  | S k => let s' := lcg s in
           if s' =? 0 then None else orbit_clear k s'
  end.

(** The modulus as a number of draws. *)
Definition PERIOD : nat := Z.to_nat 233280.

End Period.

(** ** More of the partitioner and the renderer: measures of the result *)

Definition area (b : Block) : Z := width b * height b.

Definition total_area (bs : list Block) : Z := fold_right Z.add 0 (map area bs).

(** [inner] lies within [outer]. *)
Definition inside (outer inner : Block) : Prop :=
  x outer <= x inner /\ x inner + width inner <= x outer + width outer /\
  y outer <= y inner /\ y inner + height inner <= y outer + height outer.

(** [b] lies within [outer] and is at least [lowW] wide and [lowH] high. *)
Definition shaped (lowW lowH : Z) (outer b : Block) : Prop :=
  inside outer b /\ lowW <= width b /\ lowH <= height b.

(** The rectangle a fill or a stroke is asked for. *)
Definition rect_of (o : Render.Op) : Block :=
  match o with
  | Render.FillRect _ bx byy bw bh
  | Render.StrokeRect _ _ _ _ bx byy bw bh =>
      {| x := bx; y := byy; width := bw; height := bh |}
  end.

(** ** The server as a whole: what reaches it, in order *)

Module Loop.

(** One turn of the event loop: a socket connects, one of the three
    per-socket handlers fires, or the scheduler's timer fires. *)
Inductive Input : Type :=
| Connects (socketId : string)
| Joins (socketId : string) (userAgent : option string)
| SyncRequests (socketId : string) (clientTime : Z)
| Disconnects (socketId : string)
| Ticks.

Definition handle (env : Server.Env) (i : Input) : Server.M unit :=
  match i with
  | Connects socketId => Server.on_connection env socketId
  | Joins socketId userAgent => Server.on_join socketId userAgent
  | SyncRequests socketId clientTime => Server.on_sync_request env socketId clientTime
  | Disconnects socketId => Server.on_disconnect socketId
  | Ticks => Server.tick env
  end.

(** The turns are run one after the other. *)
Definition serve (env : Server.Env) (inputs : list Input) (st : Server.State)
  : Server.State :=
  fold_left (fun s i => snd (handle env i s)) inputs st.

(** The count carried by the latest [users] broadcast, if there was one. *)
Definition lastUserCount (es : list Server.Emission) : option nat :=
  fold_left (fun acc e =>
               match e with
               | Server.IoEmit (Server.UserCountEvent n) => Some n
               | _ => acc
               end) es None.

(** [Math.random()] keeps to [[0, 1)]. *)
Definition random_in_unit (env : Server.Env) : Prop :=
  forall n, (0 <= Server.randomAt env n /\ Server.randomAt env n < 1)%Q.

End Loop.

(** ** src/index.ts: the basic generator, on [Math.random] *)

Module Basic.

Definition MAX_SPLIT_DEPTH : Z := 5.
Definition MIN_BLOCK_SIZE : Z := 300.

Section WithRandom.
(** The successive results of [Math.random()]; a position in this
    sequence is the number of calls made so far. *)
Variable random : nat -> Q.

(** The horizontal cut and the recursion into its two parts.  The source
    writes this out twice (lines 60-81 and 130-150); [rec] is
    [generateBlocks] at [depth + 1]. *)
Definition cutHorizontally (rec : Block -> nat -> list Block * nat)
           (block : Block) (pos : nat) : list Block * nat :=
  let splitPoint := Partition.splitAt (y block) (height block) (random pos) in
  let blockA := {| x := x block; y := y block;
                   width := width block;
                   height := splitPoint - y block |} in
  let blockB := {| x := x block; y := splitPoint;
                   width := width block;
                   height := y block + height block - splitPoint |} in
  let (front, pos1) := rec blockA (S pos) in
  let (back, pos2) := rec blockB pos1 in
  (front ++ back, pos2).

(** The vertical cut (lines 82-103 and 107-128). *)
Definition cutVertically (rec : Block -> nat -> list Block * nat)
           (block : Block) (pos : nat) : list Block * nat :=
  let splitPoint := Partition.splitAt (x block) (width block) (random pos) in
  let blockA := {| x := x block; y := y block;
                   width := splitPoint - x block;
                   height := height block |} in
  let blockB := {| x := splitPoint; y := y block;
                   width := x block + width block - splitPoint;
                   height := height block |} in
  let (front, pos1) := rec blockA (S pos) in
  let (back, pos2) := rec blockB pos1 in
  (front ++ back, pos2).

(** Lines 55-155 of [generateBlocks], after the two stop conditions and
    the stop draw. *)
Definition choose (rec : Block -> nat -> list Block * nat)
           (block : Block) (pos : nat) : list Block * nat :=
  let splitHorizontally := height block >? width block in
  let splitVertically := width block >? height block in
  if splitHorizontally && (height block >? MIN_BLOCK_SIZE) then
    cutHorizontally rec block pos
  else if splitVertically && (width block >? MIN_BLOCK_SIZE) then
    cutVertically rec block pos
  else if (width block >? MIN_BLOCK_SIZE) && (height block >? MIN_BLOCK_SIZE) then
    if Qltb (random pos) (1 # 2) then cutVertically rec block (S pos)
    else cutHorizontally rec block (S pos)
  else ([block], pos).

Equations? generateBlocks (block : Block) (depth : Z) (pos : nat)
    : list Block * nat by wf (Z.to_nat (MAX_SPLIT_DEPTH - depth)) lt :=
  generateBlocks block depth pos with Z_ge_lt_dec depth MAX_SPLIT_DEPTH := {
    | left _ => ([block], pos)
    | right _ =>
      if (width block <? MIN_BLOCK_SIZE) && (height block <? MIN_BLOCK_SIZE)
      then ([block], pos)
      else if Qltb (random pos) (2 # 10) && (depth >? 0) then ([block], S pos)
      else choose (fun b p => generateBlocks b (depth + 1) p) block (S pos)
  }.
Proof. all: lia. Qed.

End WithRandom.

End Basic.

(** ** The configurable generator's command line: the parameters of one image *)

Module Cli.

(** What [options.x ? parseInt(options.x, 10) : null] (or [parseFloat])
    leaves in a constant: [null] when the option is absent or empty, [NaN]
    when it does not parse, a finite number otherwise. *)
Inductive Parsed (A : Type) : Type :=
| Null
| NaN
| Num (v : A).
Arguments Null {A}.
Arguments NaN {A}.
Arguments Num {A} v.

Section WithRandom.
Variable random : nat -> Q.

(** [randInt(min, max)] and [randFloat(min, max)], from position [pos]. *)
Definition randInt (min max : Z) (pos : nat) : Z * nat :=
  (Qfloor (random pos * inject_Z (max - min + 1)) + min, S pos).

Definition randFloat (min max : Q) (pos : nat) : Q * nat :=
  ((random pos * (max - min) + min)%Q, S pos).

(** [Math.min(1.0, Math.max(0.0, c))]; [None] is [NaN]. *)
Definition clamp01 (c : option Q) : option Q :=
  match c with
  | None => None
  | Some q =>
      let lo := if Qltb q 0 then 0%Q else q in
      Some (if Qltb 1 lo then 1%Q else lo)
  end.

(** The "Configuration Logic" block of the loop, for one image: depth,
    colour chance, line weight, and the position reached. *)
Definition resolve (MAX_DEPTH_CLI : Parsed Z) (COLOR_CHANCE_CLI : Parsed Q)
           (LINE_WEIGHT_CLI : Parsed Z) (pos : nat)
  : Z * option Q * Z * nat :=
  let (maxDepth, pos1) :=
    match MAX_DEPTH_CLI with
    | Num n => if negb (n =? 0) && (n >? 0) then (n, pos) else randInt 4 6 pos
    | _ => randInt 4 6 pos
    end in
  let (colorChance, pos2) :=
    match COLOR_CHANCE_CLI with
    | Null => let (c, p) := randFloat (2 # 10) (4 # 10) pos1 in (Some c, p)
    | NaN => (None, pos1)
    | Num c => (Some c, pos1)
    end in
  let colorChance := clamp01 colorChance in
  let (lineWeight, pos3) :=
    match LINE_WEIGHT_CLI with
    | Num n => if negb (n =? 0) && (n >? 5) then (n, pos2) else randInt 25 60 pos2
    | _ => randInt 25 60 pos2
    end in
  let lineWeight := Z.max 5 lineWeight in
  (maxDepth, colorChance, lineWeight, pos3).

End WithRandom.

End Cli.

(** ** docs/dist/bundle.js: the stand-alone page's [ToneGenerator] *)

Module WebTone.

Inductive LogLine : Type :=
| LogVolume (volumePercent : Q)
| LogSpeed (seconds : Q)
| LogStarted (seconds : Q)
| LogStopped.

(** The fields of the object; of the window, its interval timers (id to
    period in ms) and the next id it will hand out; of the audio context,
    whether it is suspended.  [frames] counts the calls of
    [generateSoundAndImage], whose drawing and sound are not modelled. *)
Record ToneGenerator : Type := mkToneGenerator {
  isRunning : bool;
  intervalId : option nat;
  volume : Q;
  interval : Q;
  suspended : bool;
  timers : gmap nat Q;
  nextId : nat;
  frames : nat;
  console : list LogLine
}.

(** [new ToneGenerator(canvas)] in a window with no timers yet. *)
Definition create (suspended0 : bool) : ToneGenerator :=
  {| isRunning := false; intervalId := None; volume := 1 # 10;
     interval := 1000; suspended := suspended0; timers := ∅; nextId := 1;
     frames := 0; console := [] |}.

(** [setVolume(volumePercent)] *)
Definition setVolume (volumePercent : Q) (t : ToneGenerator) : ToneGenerator :=
  {| isRunning := isRunning t; intervalId := intervalId t;
     volume := volumePercent / 100; interval := interval t;
     suspended := suspended t; timers := timers t; nextId := nextId t;
     frames := frames t; console := console t ++ [LogVolume volumePercent] |}.

(** [setInterval(seconds)] *)
Definition setInterval (seconds : Q) (t : ToneGenerator) : ToneGenerator :=
  let period := (seconds * 1000)%Q in
  let log := console t ++ [LogSpeed seconds] in
  match isRunning t, intervalId t with
  | true, Some old =>
      {| isRunning := true; intervalId := Some (nextId t);
         volume := volume t; interval := period; suspended := suspended t;
         timers := <[nextId t := period]> (delete old (timers t));
         nextId := S (nextId t); frames := frames t; console := log |}
  | _, _ =>
      {| isRunning := isRunning t; intervalId := intervalId t;
         volume := volume t; interval := period; suspended := suspended t;
         timers := timers t; nextId := nextId t; frames := frames t;
         console := log |}
  end.

(** [start()], run to its end. *)
Definition start (t : ToneGenerator) : ToneGenerator :=
  if isRunning t then
    {| isRunning := true; intervalId := intervalId t; volume := volume t;
       interval := interval t; suspended := false; timers := timers t;
       nextId := nextId t; frames := frames t; console := console t |}
  else
    {| isRunning := true; intervalId := Some (nextId t); volume := volume t;
       interval := interval t; suspended := false;
       timers := <[nextId t := interval t]> (timers t);
       nextId := S (nextId t); frames := S (frames t);
       console := console t ++ [LogStarted (interval t / 1000)] |}.

(** [stop()] *)
Definition stop (t : ToneGenerator) : ToneGenerator :=
  match isRunning t, intervalId t with
  | true, Some id =>
      {| isRunning := false; intervalId := None; volume := volume t;
         interval := interval t; suspended := suspended t;
         timers := delete id (timers t); nextId := nextId t;
         frames := frames t; console := console t ++ [LogStopped] |}
  | _, _ => t
  end.

(** What the page's controls can ask of the object. *)
Inductive Action : Type :=
| Start
| Stop
| SetInterval (seconds : Q)
| SetVolume (volumePercent : Q).

Definition act (t : ToneGenerator) (a : Action) : ToneGenerator :=
  match a with
  | Start => start t
  | Stop => stop t
  | SetInterval seconds => setInterval seconds t
  | SetVolume volumePercent => setVolume volumePercent t
  end.

End WebTone.

(** The window holds the object's timer and no other: none when it is
    stopped, one when it runs, with the period the object has now. *)
Definition one_timer (t : WebTone.ToneGenerator) : Prop :=
  match WebTone.isRunning t, WebTone.intervalId t with
  | true, Some id =>
      WebTone.timers t = {[ id := WebTone.interval t ]} /\
      (id < WebTone.nextId t)%nat
  | false, None => WebTone.timers t = ∅
  | _, _ => False
  end.

(** Whether the latest of the [Start]/[Stop] requests was a [Start], and
    the period the latest speed request asked for (1000 ms if none). *)
Definition lastSwitch (actions : list WebTone.Action) : bool :=
  fold_left (fun acc a => match a with
                          | WebTone.Start => true
                          | WebTone.Stop => false
                          | _ => acc
                          end) actions false.

Definition lastPeriod (actions : list WebTone.Action) : Q :=
  fold_left (fun acc a => match a with
                          | WebTone.SetInterval seconds => (seconds * 1000)%Q
                          | _ => acc
                          end) actions 1000%Q.

(** ** src/web/socket.ts: the connection itself *)

Module Socket.

(** shared/types.ts, client to server. *)
Inductive ClientEvent : Type :=
| JoinEvent (userAgent : string)
| SyncRequestEvent (clientTime : Z).

Inductive LogLine : Type :=
| LogConnecting
| LogConnected
| LogDisconnected.

(** The socket.io object behind [this.socket]: its [connected] flag, which
    the transport sets before it raises "connect" and clears before it
    raises "disconnect", and what was emitted on it. *)
Record Transport : Type := mkTransport {
  connected : bool;
  sent : list ClientEvent
}.

(** The fields of [MondrianSocketClient] the connection methods touch;
    [notified] lists the calls of the connection callback, [syncTimers]
    counts the [setInterval(..., 30000)] made, whose ids the code drops. *)
Record Connection : Type := mkConnection {
  socket : option Transport;
  hasConnectionCallback : bool;
  notified : list bool;
  syncTimers : nat;
  console : list LogLine
}.

Definition create : Connection :=
  {| socket := None; hasConnectionCallback := false; notified := [];
     syncTimers := 0; console := [] |}.

(** [onConnection(callback)] *)
Definition onConnection (c : Connection) : Connection :=
  {| socket := socket c; hasConnectionCallback := true; notified := notified c;
     syncTimers := syncTimers c; console := console c |}.

(** [connect()]: a fresh socket, not yet connected. *)
Definition connect (c : Connection) : Connection :=
  {| socket := Some {| connected := false; sent := [] |};
     hasConnectionCallback := hasConnectionCallback c; notified := notified c;
     syncTimers := syncTimers c; console := console c ++ [LogConnecting] |}.

(** [this.socket?.emit(...)] *)
Definition emit (e : ClientEvent) (c : Connection) : Connection :=
  match socket c with
  | None => c
  | Some tr =>
      {| socket := Some {| connected := connected tr; sent := sent tr ++ [e] |};
         hasConnectionCallback := hasConnectionCallback c; notified := notified c;
         syncTimers := syncTimers c; console := console c |}
  end.

(** [requestTimeSync()], run when [Date.now()] is [now]. *)
Definition requestTimeSync (now : Z) (c : Connection) : Connection :=
  match socket c with
  | None => c
  | Some _ => emit (SyncRequestEvent now) c
  end.

Definition notify (b : bool) (c : Connection) : Connection :=
  if hasConnectionCallback c then
    {| socket := socket c; hasConnectionCallback := true;
       notified := notified c ++ [b];
       syncTimers := syncTimers c; console := console c |}
  else c.

Definition log (l : LogLine) (c : Connection) : Connection :=
  {| socket := socket c; hasConnectionCallback := hasConnectionCallback c;
     notified := notified c; syncTimers := syncTimers c;
     console := console c ++ [l] |}.

Definition setConnected (b : bool) (c : Connection) : Connection :=
  match socket c with
  | None => c
  | Some tr =>
      {| socket := Some {| connected := b; sent := sent tr |};
         hasConnectionCallback := hasConnectionCallback c; notified := notified c;
         syncTimers := syncTimers c; console := console c |}
  end.

Definition addSyncTimer (c : Connection) : Connection :=
  {| socket := socket c; hasConnectionCallback := hasConnectionCallback c;
     notified := notified c; syncTimers := S (syncTimers c);
     console := console c |}.

(** The "connect" event and its handler. *)
Definition on_connect (now : Z) (userAgent : string) (c : Connection) : Connection :=
  addSyncTimer
    (requestTimeSync now
       (emit (JoinEvent userAgent)
          (notify true (log LogConnected (setConnected true c))))).

(** The "disconnect" event and its handler. *)
Definition on_disconnect (c : Connection) : Connection :=
  notify false (log LogDisconnected (setConnected false c)).

(** [disconnect()]: the socket is dropped. *)
Definition disconnect (c : Connection) : Connection :=
  match socket c with
  | None => c
  | Some _ =>
      {| socket := None; hasConnectionCallback := hasConnectionCallback c;
         notified := notified c; syncTimers := syncTimers c;
         console := console c |}
  end.

(** [isConnected()] *)
Definition isConnected (c : Connection) : bool :=
  match socket c with
  | Some tr => connected tr
  | None => false
  end.

(** What can happen to a connection, one thing at a time. *)
Inductive Step : Type :=
| CallConnect
| CallOnConnection
| CallDisconnect
| ConnectEvent (now : Z) (userAgent : string)
| DisconnectEvent
| SyncTimerFires (now : Z).

Definition step (c : Connection) (s : Step) : Connection :=
  match s with
  | CallConnect => connect c
  | CallOnConnection => onConnection c
  | CallDisconnect => disconnect c
  | ConnectEvent now userAgent => on_connect now userAgent c
  | DisconnectEvent => on_disconnect c
  | SyncTimerFires now => requestTimeSync now c
  end.

Definition is_connect_event (s : Step) : bool :=
  match s with
  | ConnectEvent _ _ => true
  | _ => false
  end.

Definition is_timer (s : Step) : bool :=
  match s with
  | SyncTimerFires _ => true
  | _ => false
  end.

End Socket.

(** The fill is white. *)
Definition is_white (o : Render.Op) : bool := negb (is_colored o).

(** * Theorems *)

(** ** The generator *)

Lemma Qltb_lt (a b : Q) : Qltb a b = true <-> (a < b)%Q.
Proof.
  unfold Qltb. rewrite negb_true_iff, <- not_true_iff_false, Qle_bool_iff.
  split; [apply Qnot_le_lt | apply Qlt_not_le].
Qed.

Lemma Qltb_ge (a b : Q) : Qltb a b = false <-> (b <= a)%Q.
Proof.
  unfold Qltb. rewrite negb_false_iff. apply Qle_bool_iff.
Qed.

Lemma valid_new (s : Z) : valid (new s) /\ 0 < seed (new s).
Proof.
  unfold valid, new; simpl.
  pose proof (Z.rem_bound_abs s 233280 ltac:(lia)) as Hb.
  destruct (Z.leb_spec (Z.rem s 233280) 0); lia.
Qed.

Lemma next_seed_range (g : SeededRandom) :
  0 <= seed g -> 0 <= seed (snd (next g)) < 233280.
Proof.
  intros Hg. simpl. apply Z.rem_bound_pos; lia.
Qed.

Lemma valid_next (g : SeededRandom) : valid g -> valid (snd (next g)).
Proof.
  intros [Hg _]. pose proof (next_seed_range g Hg). unfold valid. lia.
Qed.

Lemma next_draws (g : SeededRandom) : draws (snd (next g)) = S (draws g).
Proof. reflexivity. Qed.

(** The number returned by [next] is the new state over the modulus; from a
    valid state it lies in [[0, 1)]. *)
Lemma next_unit_interval (g : SeededRandom) :
  valid g -> (0 <= fst (next g) /\ fst (next g) < 1)%Q.
Proof.
  intros [Hg _]. pose proof (next_seed_range g Hg) as Hr. simpl in *.
  unfold Qle, Qlt; simpl. lia.
Qed.

(** The ghost counter is never read. *)
Lemma next_erase (g h : SeededRandom) :
  seed g = seed h ->
  fst (next g) = fst (next h) /\ seed (snd (next g)) = seed (snd (next h)).
Proof. intros E. unfold next; simpl. rewrite E. split; reflexivity. Qed.

Lemma exec_project (schedule : list (Instance * Call)) (g1 g2 : SeededRandom) :
  project Gen1 (exec schedule (g1, g2)) = run (project Gen1 schedule) g1 /\
  project Gen2 (exec schedule (g1, g2)) = run (project Gen2 schedule) g2.
Proof.
  revert g1 g2.
  induction schedule as [|[[|] c] rest IH]; intros g1 g2; [split; reflexivity | |].
  - cbn [exec fst snd]. destruct (invoke c g1) as [out g'] eqn:E.
    destruct (IH g' g2) as [IH1 IH2].
    unfold project in *; cbn. rewrite E. split; [f_equal; exact IH1 | exact IH2].
  - cbn [exec fst snd]. destruct (invoke c g2) as [out g'] eqn:E.
    destruct (IH g1 g') as [IH1 IH2].
    unfold project in *; cbn. rewrite E. split; [exact IH1 | f_equal; exact IH2].
Qed.

Lemma run_length (calls : list Call) (g : SeededRandom) :
  length (run calls g) = length calls.
Proof.
  revert g. induction calls as [|c cs IH]; intros g; [reflexivity |].
  simpl. destruct (invoke c g). simpl. f_equal. apply IH.
Qed.

(** C1.  Two generators constructed independently from the same integer
    seed, living in one program and called in any interleaving: whenever
    the two receive the same sequence of [next]/[nextInt]/[nextFloat]
    calls, their [N]-th outputs are identical for every [N], and each is
    the output of the generator run alone. *)
Theorem seeded_random_deterministic (S : Z) (schedule : list (Instance * Call)) :
  project Gen1 schedule = project Gen2 schedule ->
  let outs := exec schedule (new S, new S) in
  (forall N : nat,
     nth_error (project Gen1 outs) N = nth_error (project Gen2 outs) N) /\
  project Gen1 outs = run (project Gen1 schedule) (new S) /\
  length (project Gen1 outs) = length (project Gen1 schedule).
Proof.
  intros Hsame outs. subst outs.
  destruct (exec_project schedule (new S) (new S)) as [H1 H2].
  rewrite H1, H2, Hsame. split; [reflexivity | split; [reflexivity |]].
  apply run_length.
Qed.

Lemma seeded_random_deterministic_witness :
  let schedule := [(Gen1, CallNext); (Gen2, CallNext); (Gen2, CallNextInt 1 6);
                   (Gen1, CallNextInt 1 6); (Gen1, CallNextFloat 0 10);
                   (Gen2, CallNextFloat 0 10)] in
  project Gen1 schedule = project Gen2 schedule /\
  project Gen1 (exec schedule (new 42, new 42)) =
    [206659 # 233280; 5; 2237130 # 233280]%Q.
Proof.
  split; [reflexivity |].
  destruct (seeded_random_deterministic 42
    [(Gen1, CallNext); (Gen2, CallNext); (Gen2, CallNextInt 1 6);
     (Gen1, CallNextInt 1 6); (Gen1, CallNextFloat 0 10);
     (Gen2, CallNextFloat 0 10)] eq_refl) as (_ & H & _).
  rewrite H. vm_compute. reflexivity.
Defined.

(** ** The partitioner: one activation *)

Import Partition.

Lemma generateBlocks_eq (block : Block) (depth maxDepth : Z) (rng : SeededRandom) :
  generateBlocks block depth maxDepth rng =
  if depth >=? maxDepth then ([block], rng)
  else visit (fun b => [b])
             (fun b g => generateBlocks b (depth + 1) maxDepth g)
             block depth rng.
Proof.
  rewrite generateBlocks_equation_1.
  destruct (Z_ge_lt_dec depth maxDepth) as [H|H]; simpl;
    destruct (Z.geb_spec depth maxDepth); solve [reflexivity | lia].
Qed.

Lemma generateBlocksTraced_eq (block : Block) (depth maxDepth : Z)
      (rng : SeededRandom) :
  generateBlocksTraced block depth maxDepth rng =
  if depth >=? maxDepth then ([(block, depth)], rng)
  else visit (fun b => [(b, depth)])
             (fun b g => generateBlocksTraced b (depth + 1) maxDepth g)
             block depth rng.
Proof.
  rewrite generateBlocksTraced_equation_1.
  destruct (Z_ge_lt_dec depth maxDepth) as [H|H]; simpl;
    destruct (Z.geb_spec depth maxDepth); solve [reflexivity | lia].
Qed.

(** Induction along the recursion: [maxDepth - depth] decreases. *)
Lemma depth_ind (maxDepth : Z) (P : Z -> Prop) :
  (forall d, maxDepth <= d -> P d) ->
  (forall d, d < maxDepth -> P (d + 1) -> P d) ->
  forall d, P d.
Proof.
  intros Hbase Hstep d.
  remember (Z.to_nat (maxDepth - d)) as n eqn:En. revert d En.
  induction n as [|n IH]; intros d En.
  - apply Hbase; lia.
  - apply Hstep; [lia |]. apply IH; lia.
Qed.

Lemma generateBlocks_terminal (block : Block) (depth maxDepth : Z)
      (rng : SeededRandom) :
  maxDepth <= depth -> generateBlocks block depth maxDepth rng = ([block], rng).
Proof.
  intros H. rewrite generateBlocks_eq.
  destruct (Z.geb_spec depth maxDepth); [reflexivity | lia].
Qed.

Lemma generateBlocks_visit (block : Block) (depth maxDepth : Z)
      (rng : SeededRandom) :
  depth < maxDepth ->
  generateBlocks block depth maxDepth rng =
  visit (fun b => [b]) (fun b g => generateBlocks b (depth + 1) maxDepth g)
        block depth rng.
Proof.
  intros H. rewrite generateBlocks_eq.
  destruct (Z.geb_spec depth maxDepth); [lia | reflexivity].
Qed.

(** Both dimensions below the minimum, as the code tests it. *)
Lemma small_true (block : Block) :
  (width block <? MIN_BLOCK_SIZE) && (height block <? MIN_BLOCK_SIZE) = true <->
  width block < MIN_BLOCK_SIZE /\ height block < MIN_BLOCK_SIZE.
Proof. rewrite andb_true_iff, !Z.ltb_lt. reflexivity. Qed.

Lemma small_false (block : Block) :
  (width block <? MIN_BLOCK_SIZE) && (height block <? MIN_BLOCK_SIZE) = false <->
  ~ (width block < MIN_BLOCK_SIZE /\ height block < MIN_BLOCK_SIZE).
Proof. rewrite <- small_true. symmetry. apply not_true_iff_false. Qed.

Lemma stop_true (r : Q) (depth : Z) :
  Qltb r (2 # 10) && (depth >? 0) = true <-> (r < 2 # 10)%Q /\ 0 < depth.
Proof. rewrite andb_true_iff, Qltb_lt, Z.gtb_ltb, Z.ltb_lt. reflexivity. Qed.

(** What [subdivide] and [visit] do to the draw counter and to the number
    of blocks, given the same of the recursive calls. *)
Section ActivationFacts.
Context {A : Type} (leaf : Block -> list A)
        (rec : Block -> SeededRandom -> list A * SeededRandom).
Hypothesis leaf_one : forall b, length (leaf b) = 1%nat.
Hypothesis rec_draws : forall b g, (draws g <= draws (snd (rec b g)))%nat.
Hypothesis rec_length : forall b g, (1 <= length (fst (rec b g)))%nat.

Lemma subdivide_draws block g :
  (draws g <= draws (snd (subdivide leaf rec block g)))%nat.
Proof.
  unfold subdivide.
  repeat match goal with
  | |- context [if ?c then _ else _] => destruct c
  | |- context [let (_, _) := next ?g in _] => destruct (next g) eqn:?
  | |- context [let (_, _) := rec ?b ?g in _] =>
      pose proof (rec_draws b g); destruct (rec b g) eqn:?
  end; simpl in *;
  repeat match goal with
  | H : next ?g = (_, _) |- _ =>
      apply (f_equal snd) in H; simpl in H; subst
  end; simpl in *; lia.
Qed.

Lemma subdivide_length block g :
  (1 <= length (fst (subdivide leaf rec block g)))%nat.
Proof.
  unfold subdivide.
  repeat match goal with
  | |- context [if ?c then _ else _] => destruct c
  | |- context [let (_, _) := next ?g in _] => destruct (next g) eqn:?
  | |- context [let (_, _) := rec ?b ?g in _] =>
      pose proof (rec_length b g); destruct (rec b g) eqn:?
  end; simpl in *; rewrite ?length_app, ?leaf_one; lia.
Qed.

Lemma subdivide_splits block g :
  (MIN_BLOCK_SIZE < height block /\ width block < height block) \/
  (MIN_BLOCK_SIZE < width block /\ height block < width block) ->
  (2 <= length (fst (subdivide leaf rec block g)))%nat.
Proof.
  intros Hsplit. unfold subdivide.
  destruct (Z.gtb_spec (height block) (width block));
    destruct (Z.gtb_spec (height block) MIN_BLOCK_SIZE);
    destruct (Z.gtb_spec (width block) (height block));
    destruct (Z.gtb_spec (width block) MIN_BLOCK_SIZE);
    simpl; try lia;
  repeat match goal with
  | |- context [let (_, _) := next ?g in _] => destruct (next g) eqn:?
  | |- context [let (_, _) := rec ?b ?g in _] =>
      pose proof (rec_length b g); destruct (rec b g) eqn:?
  end; simpl in *; rewrite ?length_app; lia.
Qed.

Lemma visit_draws block depth g :
  (draws g <= draws (snd (visit leaf rec block depth g)))%nat.
Proof.
  unfold visit.
  destruct (_ && _); [simpl; lia |].
  destruct (next g) as [r g1] eqn:E.
  apply (f_equal snd) in E; simpl in E; subst g1.
  destruct (_ && _); [simpl; lia |].
  pose proof (subdivide_draws block {| seed := Z.rem (seed g * 9301 + 49297) 233280;
                                       draws := S (draws g) |}).
  simpl in *. lia.
Qed.

Lemma visit_length block depth g :
  (1 <= length (fst (visit leaf rec block depth g)))%nat.
Proof.
  unfold visit.
  destruct (_ && _); [simpl; rewrite leaf_one; lia |].
  destruct (next g) as [r g1].
  destruct (_ && _); [simpl; rewrite leaf_one; lia |].
  apply subdivide_length.
Qed.
End ActivationFacts.

Lemma generateBlocks_draws (maxDepth depth : Z) :
  forall block rng,
    (draws rng <= draws (snd (generateBlocks block depth maxDepth rng)))%nat.
Proof.
  pattern depth. apply (depth_ind maxDepth); clear depth.
  - intros d Hd block rng. rewrite generateBlocks_terminal by lia. simpl. lia.
  - intros d Hd IH block rng. rewrite generateBlocks_visit by lia.
    apply visit_draws. exact IH.
Qed.

Lemma generateBlocks_length (maxDepth depth : Z) :
  forall block rng,
    (1 <= length (fst (generateBlocks block depth maxDepth rng)))%nat.
Proof.
  pattern depth. apply (depth_ind maxDepth); clear depth.
  - intros d Hd block rng. rewrite generateBlocks_terminal by lia. simpl. lia.
  - intros d Hd IH block rng. rewrite generateBlocks_visit by lia.
    apply visit_length; [reflexivity | exact IH].
Qed.

(** C4.  Below the depth limit: when both dimensions are under the minimum
    the call returns [[block]] and the generator is untouched, no draw is
    made; when they are not, the stop test makes its draw, and a call that
    stops early on it returns [[block]] having made exactly that one
    draw. *)
Theorem early_stop_draws (block : Block) (depth maxDepth : Z) (rng : SeededRandom) :
  depth < maxDepth ->
  let result := generateBlocks block depth maxDepth rng in
  (width block < MIN_BLOCK_SIZE /\ height block < MIN_BLOCK_SIZE ->
     result = ([block], rng)) /\
  (~ (width block < MIN_BLOCK_SIZE /\ height block < MIN_BLOCK_SIZE) ->
     (S (draws rng) <= draws (snd result))%nat /\
     ((fst (next rng) < 2 # 10)%Q -> 0 < depth ->
        result = ([block], snd (next rng)) /\
        draws (snd result) = S (draws rng))).
Proof.
  intros Hd result. subst result.
  rewrite generateBlocks_visit by exact Hd. unfold visit.
  split.
  - intros Hsmall. apply small_true in Hsmall. rewrite Hsmall. reflexivity.
  - intros Hbig. apply small_false in Hbig. rewrite Hbig.
    destruct (next rng) as [r rng1] eqn:E.
    assert (Hdraw : draws rng1 = S (draws rng))
      by (apply (f_equal snd) in E; simpl in E; subst rng1; reflexivity).
    split.
    + destruct (Qltb r (2 # 10) && (depth >? 0)); simpl; [lia |].
      pose proof (subdivide_draws (fun b => [b])
                    (fun b g => generateBlocks b (depth + 1) maxDepth g)
                    (generateBlocks_draws maxDepth (depth + 1)) block rng1).
      lia.
    + simpl. intros Hr Hpos.
      assert (Hstop : Qltb r (2 # 10) && (depth >? 0) = true)
        by (apply stop_true; split; assumption).
      rewrite Hstop. simpl. split; [reflexivity | exact Hdraw].
Qed.

Lemma early_stop_draws_witness :
  let small := {| x := 0; y := 0; width := 100; height := 120 |} in
  let large := {| x := 0; y := 0; width := 400; height := 300 |} in
  generateBlocks small 1 4 (new 20) = ([small], new 20) /\
  generateBlocks large 1 4 (new 20) = ([large], snd (next (new 20))) /\
  draws (snd (generateBlocks large 1 4 (new 20))) = 1%nat.
Proof.
  intros small large.
  destruct (early_stop_draws small 1 4 (new 20) ltac:(lia)) as [Hs _].
  destruct (early_stop_draws large 1 4 (new 20) ltac:(lia)) as [_ Hl].
  split; [apply Hs; vm_compute; split; reflexivity |].
  destruct Hl as [_ Hstop]; [vm_compute; intros [H _]; discriminate H |].
  apply Hstop; vm_compute; reflexivity.
Defined.




(** C10.  At the root (depth 0) of a block that is not under the minimum in
    both dimensions, with a positive depth limit: the stop test makes its
    one draw and, whatever the number drawn, the call goes on to the choice
    of the axis with the generator one draw further; a root that has a
    longer side above the minimum is therefore always split. *)
Theorem root_stop_check_draws (block : Block) (maxDepth : Z) (rng : SeededRandom) :
  0 < maxDepth ->
  ~ (width block < MIN_BLOCK_SIZE /\ height block < MIN_BLOCK_SIZE) ->
  let result := generateBlocks block 0 maxDepth rng in
  let rng1 := snd (next rng) in
  result = subdivide (fun b => [b])
                     (fun b g => generateBlocks b 1 maxDepth g) block rng1 /\
  draws rng1 = S (draws rng) /\
  (S (draws rng) <= draws (snd result))%nat /\
  ((MIN_BLOCK_SIZE < height block /\ width block < height block) \/
   (MIN_BLOCK_SIZE < width block /\ height block < width block) ->
   (2 <= length (fst result))%nat).
Proof.
  intros Hd Hbig result rng1. subst result rng1.
  assert (E : generateBlocks block 0 maxDepth rng =
              subdivide (fun b => [b])
                (fun b g => generateBlocks b 1 maxDepth g) block (snd (next rng))).
  { rewrite generateBlocks_visit by exact Hd. unfold visit.
    apply small_false in Hbig. rewrite Hbig.
    destruct (next rng) as [r rng1]. rewrite andb_false_r. reflexivity. }
  rewrite E. split; [reflexivity | split; [reflexivity | split]].
  - pose proof (subdivide_draws (fun b => [b])
                  (fun b g => generateBlocks b 1 maxDepth g)
                  (generateBlocks_draws maxDepth 1) block (snd (next rng))) as H.
    simpl in *. lia.
  - apply subdivide_splits. apply (generateBlocks_length maxDepth 1).
Qed.

Lemma root_stop_check_draws_witness :
  let canvas := {| x := 0; y := 0; width := 1920; height := 1080 |} in
  (fst (next (new 20)) < 2 # 10)%Q /\
  draws (snd (next (new 20))) = 1%nat /\
  (2 <= length (fst (generateBlocks canvas 0 4 (new 20))))%nat.
Proof.
  intros canvas.
  destruct (root_stop_check_draws canvas 4 (new 20) ltac:(lia))
    as (_ & Hdraw & _ & Hsplit).
  - vm_compute. intros [H _]. discriminate H.
  - split; [vm_compute; reflexivity |]. split; [exact Hdraw |].
    apply Hsplit. right. vm_compute. split; reflexivity.
Defined.

(** ** The partitioner: the whole recursion *)

(** The split point lies in the side it cuts. *)
Lemma splitAt_range (origin extent : Z) (g : SeededRandom) :
  valid g -> 0 <= extent ->
  origin <= splitAt origin extent (fst (next g)) <= origin + extent.
Proof.
  intros Hg He. destruct (next_unit_interval g Hg) as [H0 H1].
  set (r := fst (next g)) in *. unfold splitAt.
  assert (Hext : (0 <= inject_Z extent)%Q) by (rewrite <- (Zle_Qle 0); exact He).
  set (e := inject_Z extent) in *.
  assert (Hlo : (inject_Z origin <= inject_Z origin + e * (r * (4 # 10) + (3 # 10)))%Q)
    by nra.
  assert (Hhi : (inject_Z origin + e * (r * (4 # 10) + (3 # 10))
                 <= inject_Z (origin + extent))%Q)
    by (rewrite inject_Z_plus; fold e; nra).
  apply Qfloor_resp_le in Hlo, Hhi. rewrite Qfloor_Z in Hlo, Hhi. lia.
Qed.

Lemma ForallOrdPairs_app {A : Type} (R : A -> A -> Prop) (l1 l2 : list A) :
  ForallOrdPairs R l1 -> ForallOrdPairs R l2 ->
  (forall a b, In a l1 -> In b l2 -> R a b) ->
  ForallOrdPairs R (l1 ++ l2).
Proof.
  intros H1 H2 Hcross. induction H1 as [|a l Ha Hl IH]; [exact H2 |].
  simpl. constructor.
  - apply List.Forall_app. split; [exact Ha |].
    apply List.Forall_forall. intros b Hb. apply Hcross; [left; reflexivity | exact Hb].
  - apply IH. intros a' b Ha' Hb. apply Hcross; [right; exact Ha' | exact Hb].
Qed.

Lemma tiles_single (b : Block) : tiles [b] b.
Proof.
  split.
  - intros px py. split.
    + intros H. exists b. split; [left; reflexivity | exact H].
    + intros (b' & [<- | []] & H). exact H.
  - constructor; constructor.
Qed.

(** Two tilings of the two sides of a cut make a tiling of the whole. *)
Lemma tiles_app (front back : list Block) (a b r : Block) :
  tiles front a -> tiles back b ->
  (forall px py, covers r px py <-> covers a px py \/ covers b px py) ->
  ~ overlap a b ->
  tiles (front ++ back) r.
Proof.
  intros [Ca Da] [Cb Db] Hcut Hab. split.
  - intros px py. rewrite Hcut, Ca, Cb. split.
    + intros [(c & Hc & H) | (c & Hc & H)]; exists c;
        (split; [apply in_or_app; auto | exact H]).
    + intros (c & Hc & H). apply in_app_or in Hc.
      destruct Hc as [Hc | Hc]; [left | right]; exists c; auto.
  - apply ForallOrdPairs_app; [exact Da | exact Db |].
    intros fa fb Hfa Hfb (px & py & Hpa & Hpb). apply Hab.
    exists px, py. split; [apply Ca | apply Cb]; eauto.
Qed.

Section ActivationTiles.
Variable rec : Block -> SeededRandom -> list Block * SeededRandom.
Hypothesis rec_tiles :
  forall b g, valid g -> tiles (fst (rec b g)) b /\ valid (snd (rec b g)).

Lemma subdivide_tiles block g :
  valid g ->
  tiles (fst (subdivide (fun b => [b]) rec block g)) block /\
  valid (snd (subdivide (fun b => [b]) rec block g)).
Proof.
  intros Hg. unfold subdivide.
  destruct ((height block >? width block) && (height block >? MIN_BLOCK_SIZE))
    eqn:Hh; [| destruct ((width block >? height block) && (width block >? MIN_BLOCK_SIZE))
                 eqn:Hw].
  - apply andb_true_iff in Hh. destruct Hh as [_ Hh].
    rewrite Z.gtb_ltb, Z.ltb_lt in Hh. unfold MIN_BLOCK_SIZE in Hh.
    pose proof (splitAt_range (y block) (height block) g Hg ltac:(lia)) as Hsp.
    pose proof (valid_next g Hg) as Hg2.
    destruct (next g) as [r g2]. simpl in Hsp, Hg2.
    set (sp := splitAt (y block) (height block) r) in *.
    match goal with |- context [rec ?a g2] =>
      destruct (rec_tiles a g2 Hg2) as [Ta Va]; destruct (rec a g2) as [front g3]
    end.
    match goal with |- context [rec ?b g3] =>
      destruct (rec_tiles b g3 Va) as [Tb Vb]; destruct (rec b g3) as [back g4]
    end.
    simpl in *. split; [| exact Vb].
    eapply tiles_app; [exact Ta | exact Tb | |].
    + intros px py. unfold covers; simpl. lia.
    + intros (px & py & Ha & Hb). unfold covers in *; simpl in *. lia.
  - apply andb_true_iff in Hw. destruct Hw as [_ Hw].
    rewrite Z.gtb_ltb, Z.ltb_lt in Hw. unfold MIN_BLOCK_SIZE in Hw.
    pose proof (splitAt_range (x block) (width block) g Hg ltac:(lia)) as Hsp.
    pose proof (valid_next g Hg) as Hg2.
    destruct (next g) as [r g2]. simpl in Hsp, Hg2.
    set (sp := splitAt (x block) (width block) r) in *.
    match goal with |- context [rec ?a g2] =>
      destruct (rec_tiles a g2 Hg2) as [Ta Va]; destruct (rec a g2) as [front g3]
    end.
    match goal with |- context [rec ?b g3] =>
      destruct (rec_tiles b g3 Va) as [Tb Vb]; destruct (rec b g3) as [back g4]
    end.
    simpl in *. split; [| exact Vb].
    eapply tiles_app; [exact Ta | exact Tb | |].
    + intros px py. unfold covers; simpl. lia.
    + intros (px & py & Ha & Hb). unfold covers in *; simpl in *. lia.
  - simpl. split; [apply tiles_single | exact Hg].
Qed.

Lemma visit_tiles block depth g :
  valid g ->
  tiles (fst (visit (fun b => [b]) rec block depth g)) block /\
  valid (snd (visit (fun b => [b]) rec block depth g)).
Proof.
  intros Hg. unfold visit.
  destruct ((width block <? MIN_BLOCK_SIZE) && (height block <? MIN_BLOCK_SIZE));
    [simpl; split; [apply tiles_single | exact Hg] |].
  pose proof (valid_next g Hg) as Hg1. destruct (next g) as [r g1].
  destruct (Qltb r (2 # 10) && (depth >? 0));
    [simpl; split; [apply tiles_single | exact Hg1] |].
  apply subdivide_tiles. exact Hg1.
Qed.
End ActivationTiles.

Lemma generateBlocks_tiles_valid (maxDepth depth : Z) :
  forall block rng,
    valid rng ->
    tiles (fst (generateBlocks block depth maxDepth rng)) block /\
    valid (snd (generateBlocks block depth maxDepth rng)).
Proof.
  pattern depth. apply (depth_ind maxDepth); clear depth.
  - intros d Hd block rng Hg. rewrite generateBlocks_terminal by lia.
    simpl. split; [apply tiles_single | exact Hg].
  - intros d Hd IH block rng Hg. rewrite generateBlocks_visit by lia.
    apply visit_tiles; [exact IH | exact Hg].
Qed.



(** [visit] commutes with a relabelling of the returned entries. *)
Section ActivationMap.
Context {A B : Type} (f : A -> B).
Variables (leafA : Block -> list A) (leafB : Block -> list B).
Variables (recA : Block -> SeededRandom -> list A * SeededRandom)
          (recB : Block -> SeededRandom -> list B * SeededRandom).
Hypothesis leaf_map : forall b, leafB b = map f (leafA b).
Hypothesis rec_map :
  forall b g, recB b g = (map f (fst (recA b g)), snd (recA b g)).

Lemma subdivide_map block g :
  subdivide leafB recB block g =
  (map f (fst (subdivide leafA recA block g)),
   snd (subdivide leafA recA block g)).
Proof.
  unfold subdivide.
  repeat match goal with
  | |- context [if ?c then _ else _] => destruct c
  | |- context [let (_, _) := next ?g in _] => destruct (next g)
  end; rewrite ?rec_map, ?leaf_map;
  repeat match goal with
  | |- context [recA ?b ?g] => destruct (recA b g); simpl; rewrite ?rec_map
  end; simpl; rewrite ?map_app; reflexivity.
Qed.

Lemma visit_map block depth g :
  visit leafB recB block depth g =
  (map f (fst (visit leafA recA block depth g)),
   snd (visit leafA recA block depth g)).
Proof.
  unfold visit.
  destruct ((width block <? MIN_BLOCK_SIZE) && (height block <? MIN_BLOCK_SIZE));
    [rewrite leaf_map; reflexivity |].
  destruct (next g) as [r g1].
  destruct (Qltb r (2 # 10) && (depth >? 0));
    [rewrite leaf_map; reflexivity |].
  apply subdivide_map.
Qed.
End ActivationMap.

(** [visit] keeps a property of the entries, and at most doubles their
    number. *)
Section ActivationForall.
Context {A : Type} (P : A -> Prop) (bound : nat).
Variables (leaf : Block -> list A)
          (rec : Block -> SeededRandom -> list A * SeededRandom).
Hypothesis leaf_P : forall b, Forall P (leaf b).
Hypothesis rec_P : forall b g, Forall P (fst (rec b g)).
Hypothesis leaf_one : forall b, length (leaf b) = 1%nat.
Hypothesis rec_bound : forall b g, (length (fst (rec b g)) <= bound)%nat.

Lemma visit_Forall block depth g :
  Forall P (fst (visit leaf rec block depth g)) /\
  (length (fst (visit leaf rec block depth g)) <= Nat.max 1 (2 * bound))%nat.
Proof.
  unfold visit, subdivide.
  repeat match goal with
  | |- context [if ?c then _ else _] => destruct c
  | |- context [let (_, _) := next ?g in _] => destruct (next g)
  | |- context [let (_, _) := rec ?b ?g in _] =>
      pose proof (rec_P b g); pose proof (rec_bound b g); destruct (rec b g)
  end; simpl in *; rewrite ?length_app, ?leaf_one;
    (split; [first [apply leaf_P | apply List.Forall_app; split; assumption] | lia]).
Qed.
End ActivationForall.

(** The trace and the function agree. *)
Lemma generateBlocksTraced_erase (maxDepth depth : Z) :
  forall block rng,
    generateBlocks block depth maxDepth rng =
    (map fst (fst (generateBlocksTraced block depth maxDepth rng)),
     snd (generateBlocksTraced block depth maxDepth rng)).
Proof.
  pattern depth. apply (depth_ind maxDepth); clear depth.
  - intros d Hd block rng.
    rewrite generateBlocks_eq, generateBlocksTraced_eq.
    destruct (Z.geb_spec d maxDepth); [reflexivity | lia].
  - intros d Hd IH block rng.
    rewrite generateBlocks_eq, generateBlocksTraced_eq.
    destruct (Z.geb_spec d maxDepth); [reflexivity |].
    apply (visit_map fst); [reflexivity | exact IH].
Qed.

Lemma generateBlocksTraced_bound (maxDepth depth0 depth : Z) :
  forall block rng,
    depth0 <= depth ->
    Forall (fun e => depth0 <= snd e <= Z.max depth0 (Z.max depth maxDepth))
           (fst (generateBlocksTraced block depth maxDepth rng)) /\
    (length (fst (generateBlocksTraced block depth maxDepth rng))
     <= 2 ^ Z.to_nat (maxDepth - depth))%nat.
Proof.
  pattern depth. apply (depth_ind maxDepth); clear depth.
  - intros d Hd block rng H0. rewrite generateBlocksTraced_eq.
    destruct (Z.geb_spec d maxDepth); [| lia]. simpl. split.
    + constructor; [simpl; lia | constructor].
    + pose proof (Nat.pow_nonzero 2 (Z.to_nat (maxDepth - d))). lia.
  - intros d Hd IH block rng H0. rewrite generateBlocksTraced_eq.
    destruct (Z.geb_spec d maxDepth); [lia |].
    replace (Z.to_nat (maxDepth - d)) with (S (Z.to_nat (maxDepth - (d + 1))))
      by lia.
    rewrite Nat.pow_succ_r'.
    pose proof (Nat.pow_nonzero 2 (Z.to_nat (maxDepth - (d + 1))) ltac:(lia)).
    destruct (visit_Forall
                (fun e => depth0 <= snd e <= Z.max depth0 (Z.max d maxDepth))
                (2 ^ Z.to_nat (maxDepth - (d + 1)))
                (fun b => [(b, d)])
                (fun b g => generateBlocksTraced b (d + 1) maxDepth g)) with
      (block := block) (depth := d) (g := rng) as [HP Hlen].
    + intros b. constructor; [simpl; lia | constructor].
    + intros b g. destruct (IH b g ltac:(lia)) as [HF _].
      eapply List.Forall_impl; [| exact HF]. simpl. intros e He. lia.
    + reflexivity.
    + intros b g. apply (IH b g ltac:(lia)).
    + split; [exact HP | lia].
Qed.

(** C9.  [generateBlocks] is a total function, defined by well-founded
    recursion on [maxDepth - depth]: it returns at once when
    [depth >= maxDepth], and otherwise recurses only at [depth + 1].  Tagging every returned block with the
    depth of the activation that returned it changes nothing else, and no
    tag is more than [maxDepth - depth] above the initial depth: no block
    results from more than that many splits, and at most
    [2 ^ (maxDepth - depth)] blocks are returned. *)
Theorem generateBlocks_depth_bound (block : Block) (depth maxDepth : Z)
        (rng : SeededRandom) :
  let traced := generateBlocksTraced block depth maxDepth rng in
  let result := generateBlocks block depth maxDepth rng in
  result = (map fst (fst traced), snd traced) /\
  Forall (fun e => 0 <= snd e - depth <= Z.max 0 (maxDepth - depth)) (fst traced) /\
  (length (fst result) <= 2 ^ Z.to_nat (maxDepth - depth))%nat /\
  result = (if depth >=? maxDepth then ([block], rng)
            else visit (fun b => [b])
                       (fun b g => generateBlocks b (depth + 1) maxDepth g)
                       block depth rng).
Proof.
  intros traced result. subst traced result.
  destruct (generateBlocksTraced_bound maxDepth depth depth block rng ltac:(lia))
    as [HF Hlen].
  rewrite (generateBlocksTraced_erase maxDepth depth block rng) at 1 2.
  split; [reflexivity |]. split; [| split].
  - eapply List.Forall_impl; [| exact HF]. simpl. intros e He. lia.
  - simpl. rewrite length_map. exact Hlen.
  - apply generateBlocks_eq.
Qed.

(** The ghost counter decides nothing: two generators in the same state
    give the same blocks and end in the same state. *)
Section ActivationErase.
Context {A : Type} (leaf : Block -> list A)
        (rec : Block -> SeededRandom -> list A * SeededRandom).
Hypothesis rec_erase :
  forall b g h, seed g = seed h ->
    fst (rec b g) = fst (rec b h) /\ seed (snd (rec b g)) = seed (snd (rec b h)).

Lemma subdivide_erase block g h :
  seed g = seed h ->
  fst (subdivide leaf rec block g) = fst (subdivide leaf rec block h) /\
  seed (snd (subdivide leaf rec block g)) = seed (snd (subdivide leaf rec block h)).
Proof.
  intros E. unfold subdivide.
  destruct (next_erase g h E) as [Er Es].
  destruct (next g) as [r g2], (next h) as [r' h2]. simpl in Er, Es. subst r'.
  assert (Hsplit : forall a b,
    fst (let (front, rng3) := rec a g2 in
         let (back, rng4) := rec b rng3 in (front ++ back, rng4)) =
    fst (let (front, rng3) := rec a h2 in
         let (back, rng4) := rec b rng3 in (front ++ back, rng4)) /\
    seed (snd (let (front, rng3) := rec a g2 in
               let (back, rng4) := rec b rng3 in (front ++ back, rng4))) =
    seed (snd (let (front, rng3) := rec a h2 in
               let (back, rng4) := rec b rng3 in (front ++ back, rng4)))).
  { intros a b. destruct (rec_erase a g2 h2 Es) as [E1 E2].
    destruct (rec a g2) as [front g3], (rec a h2) as [front' h3].
    simpl in E1, E2. subst front'.
    destruct (rec_erase b g3 h3 E2) as [E3 E4].
    destruct (rec b g3) as [back g4], (rec b h3) as [back' h4].
    simpl in *. subst back'. auto. }
  repeat match goal with
  | |- context [if ?c then _ else _] => destruct c
  end; [apply Hsplit | apply Hsplit | simpl; auto].
Qed.

Lemma visit_erase block depth g h :
  seed g = seed h ->
  fst (visit leaf rec block depth g) = fst (visit leaf rec block depth h) /\
  seed (snd (visit leaf rec block depth g)) = seed (snd (visit leaf rec block depth h)).
Proof.
  intros E. unfold visit.
  destruct ((width block <? MIN_BLOCK_SIZE) && (height block <? MIN_BLOCK_SIZE));
    [simpl; auto |].
  destruct (next_erase g h E) as [Er Es].
  destruct (next g) as [r g1], (next h) as [r' h1]. simpl in Er, Es. subst r'.
  destruct (Qltb r (2 # 10) && (depth >? 0)); [simpl; auto |].
  apply subdivide_erase. exact Es.
Qed.
End ActivationErase.

Lemma generateBlocks_erase (maxDepth depth : Z) :
  forall block g h,
    seed g = seed h ->
    fst (generateBlocks block depth maxDepth g) =
      fst (generateBlocks block depth maxDepth h) /\
    seed (snd (generateBlocks block depth maxDepth g)) =
      seed (snd (generateBlocks block depth maxDepth h)).
Proof.
  pattern depth. apply (depth_ind maxDepth); clear depth.
  - intros d Hd block g h E. rewrite !generateBlocks_terminal by lia. auto.
  - intros d Hd IH block g h E. rewrite !generateBlocks_visit by lia.
    apply visit_erase; [exact IH | exact E].
Qed.

(** ** The renderer *)

Lemma palette_index (r : Q) :
  (0 <= r)%Q -> (r < 1)%Q ->
  exists c, Render.palette (Qfloor (r * 3)%Q) = Some c /\
            In c Render.PRIMARY_COLORS /\
            String.eqb c Render.BACKGROUND_COLOR = false.
Proof.
  intros H0 H1.
  assert (Hlo : 0 <= Qfloor (r * 3)%Q).
  { change 0 with (Qfloor 0). apply Qfloor_resp_le. nra. }
  assert (Hhi : Qfloor (r * 3)%Q < 3).
  { rewrite Zlt_Qlt. eapply Qle_lt_trans; [apply Qfloor_le |].
    change (inject_Z 3) with 3%Q. nra. }
  assert (Hcase : Qfloor (r * 3)%Q = 0 \/ Qfloor (r * 3)%Q = 1 \/ Qfloor (r * 3)%Q = 2)
    by lia.
  destruct Hcase as [E | [E | E]]; rewrite E;
    eexists; (split; [reflexivity | split; [simpl; tauto | reflexivity]]).
Qed.

Lemma strokeBlocks_ops (blocks : list Block) (ctx : Render.Context2D) :
  Render.ops (Render.strokeBlocks blocks ctx) =
  Render.ops ctx ++
  map (fun b => Render.StrokeRect (Render.strokeStyle ctx) (Render.lineWidth ctx)
                  (Render.lineCap ctx) (Render.lineJoin ctx)
                  (x b) (y b) (width b) (height b)) blocks.
Proof.
  revert ctx. induction blocks as [|b bs IH]; intros ctx; simpl.
  - rewrite app_nil_r. reflexivity.
  - rewrite IH. simpl. rewrite <- app_assoc. reflexivity.
Qed.

Lemma setFillStyle_ops (v : option string) (ctx : Render.Context2D) :
  Render.ops (Render.setFillStyle v ctx) = Render.ops ctx.
Proof. destruct v; reflexivity. Qed.

Lemma fillBlocks_spec (colorChance : Q) (blocks : list Block) :
  forall ctx rng,
    valid rng ->
    exists fills,
      Render.ops (fst (Render.fillBlocks blocks colorChance ctx rng)) =
        Render.ops ctx ++ fills /\
      Fills colorChance blocks rng fills
            (snd (Render.fillBlocks blocks colorChance ctx rng)) /\
      draws (snd (Render.fillBlocks blocks colorChance ctx rng)) =
        (draws rng + 2 * colored fills + (length blocks - colored fills))%nat /\
      (colored fills <= length blocks)%nat.
Proof.
  induction blocks as [|b bs IH]; intros ctx rng Hg.
  - exists []. simpl. rewrite app_nil_r.
    repeat split; [constructor | unfold colored; simpl; lia | unfold colored; simpl; lia].
  - cbn [Render.fillBlocks]. pose proof (valid_next rng Hg) as Hg1.
    destruct (next rng) as [r1 g1] eqn:E1. cbn [snd] in Hg1.
    destruct (Qltb r1 colorChance) eqn:Hc.
    + apply Qltb_lt in Hc.
      pose proof (valid_next g1 Hg1) as Hg2.
      destruct (next_unit_interval g1 Hg1) as [H0 H1].
      destruct (next g1) as [r2 g2] eqn:E2. cbn [fst snd] in Hg2, H0, H1.
      destruct (palette_index r2 H0 H1) as (c & Hpal & _ & Hne).
      change (inject_Z (Z.of_nat (length Render.PRIMARY_COLORS))) with 3%Q.
      rewrite Hpal.
      match goal with |- context [Render.fillBlocks bs colorChance ?ctx' g2] =>
        destruct (IH ctx' g2 Hg2) as (fills & Hops & HF & Hdr & Hle);
        exists (Render.FillRect c (x b) (y b) (width b) (height b) :: fills)
      end.
      rewrite Hops, Hdr. simpl. rewrite <- app_assoc. simpl.
      assert (Hd1 : draws g1 = S (draws rng))
        by (apply (f_equal snd) in E1; simpl in E1; subst g1; reflexivity).
      assert (Hd2 : draws g2 = S (draws g1))
        by (apply (f_equal snd) in E2; simpl in E2; subst g2; reflexivity).
      unfold colored in *. simpl. rewrite Hne. simpl.
      repeat split; [econstructor; eassumption | lia | lia].
    + apply Qltb_ge in Hc.
      match goal with |- context [Render.fillBlocks bs colorChance ?ctx' g1] =>
        destruct (IH ctx' g1 Hg1) as (fills & Hops & HF & Hdr & Hle);
        exists (Render.FillRect Render.BACKGROUND_COLOR
                  (x b) (y b) (width b) (height b) :: fills)
      end.
      rewrite Hops, Hdr. simpl. rewrite <- app_assoc. simpl.
      assert (Hd1 : draws g1 = S (draws rng))
        by (apply (f_equal snd) in E1; simpl in E1; subst g1; reflexivity).
      unfold colored in *. simpl.
      repeat split; [econstructor; eassumption | lia | lia].
Qed.



(** ** The broadcast scheduler and the health endpoint *)

(** C6.  A tick that finds the registry empty returns at once: the whole
    server state is what it was, so nothing was emitted (no generate, no
    audio event), nothing was logged, neither [Math.random] nor [Date.now]
    was read, and the registry is unchanged. *)
Theorem idle_tick_is_silent (env : Server.Env) (st : Server.State) :
  size (Server.connectedClients st) = 0%nat ->
  Server.tick env st = (tt, st) /\
  Server.emitted (snd (Server.tick env st)) = Server.emitted st.
Proof.
  intros Hidle.
  assert (E : Server.tick env st = (tt, st)).
  { unfold Server.tick, Server.generateAndBroadcast, Server.bind,
      Server.clients_size.
    rewrite Hidle. reflexivity. }
  rewrite E. split; reflexivity.
Qed.

Lemma idle_tick_is_silent_witness :
  let env := {| Server.randomAt := fun _ => 1 # 2; Server.nowAt := fun n => Z.of_nat n |} in
  size (Server.connectedClients Server.initial) = 0%nat /\
  Server.tick env Server.initial = (tt, Server.initial).
Proof.
  intros env. split; [reflexivity |].
  apply (idle_tick_is_silent env Server.initial). reflexivity.
Defined.

(** With an audience the same tick does broadcast: one generate event and
    one audio event, to every socket. *)
Lemma busy_tick_broadcasts (env : Server.Env) (st : Server.State) :
  size (Server.connectedClients st) <> 0%nat ->
  exists ts s d c w ta fs,
    Server.emitted (snd (Server.tick env st)) =
    Server.emitted st ++
    [Server.IoEmit (Server.GenerationEvent ts s d c w Server.GENERATION_INTERVAL);
     Server.IoEmit (Server.AudioEvent ta fs 5)].
Proof.
  intros Hbusy.
  apply Nat.eqb_neq in Hbusy.
  unfold Server.tick, Server.generateAndBroadcast.
  unfold Server.bind at 1. unfold Server.clients_size at 1. rewrite Hbusy.
  cbv beta iota zeta delta
    [Server.bind Server.clients_size
     Server.generateRandomParams Server.getRandomFrequency Server.Date_now
     Server.Math_random Server.send Server.console_log Server.ret
     Server.connectedClients Server.emitted Server.console
     Server.randomCalls Server.nowCalls].
  match goal with
  | |- context [if Qltb ?a ?b then _ else _] => destruct (Qltb a b)
  end; cbn [snd Server.emitted];
    rewrite <- app_assoc; do 7 eexists; reflexivity.
Qed.

Lemma empty_registry (st : Server.State) :
  size (Server.connectedClients st) = 0%nat <-> Server.connectedClients st = ∅.
Proof. apply map_size_empty_iff. Qed.

(** C7, as the specification words it, fails: the body served has no field
    [uptimeSeconds]. *)
Lemma health_counterexample : ~ health_as_specified 1 Server.initial.
Proof.
  unfold health_as_specified. intros (_ & _ & _ & Hup). vm_compute in Hup.
  discriminate Hup.
Qed.

(** C7, amended.  The body of every [GET /health] response has exactly the
    fields [status], the string ["ok"]; [clients], the number of connected
    clients; and [uptime], the process uptime in seconds. *)
Theorem health_body (uptime : Q) (st : Server.State) :
  let body := Server.health uptime st in
  Server.fieldNames body = ["status"; "clients"; "uptime"]%string /\
  Server.field "status" body = Some (Server.JString "ok") /\
  Server.field "clients" body =
    Some (Server.JNumber (inject_Z (Z.of_nat (size (Server.connectedClients st))))) /\
  Server.field "uptime" body = Some (Server.JNumber uptime) /\
  Server.field "uptimeSeconds" body = None.
Proof. repeat split. Qed.

(** ** The clock estimator *)

Lemma on_sync_offset (now serverTime clientTime : Z)
      (c : Client.MondrianSocketClient) :
  Client.clockOffset (Client.on_sync now serverTime clientTime c) =
  (inject_Z serverTime
   - (inject_Z clientTime + inject_Z (now - clientTime) / 2))%Q.
Proof. reflexivity. Qed.

(** C8.  After any history of sync responses, the clock offset is the one
    computed from the last response alone,
    [serverTime - (clientTime + rtt / 2)] with [rtt = now - clientTime]:
    the handler overwrites the estimate, it neither averages nor smooths,
    and the offset held before plays no part.  As a number this is
    [serverTime - (clientTime + now) / 2]. *)
Theorem sync_replaces_offset (history : list Client.SyncArrival)
        (a : Client.SyncArrival) (c : Client.MondrianSocketClient) :
  let c' := fold_left Client.receive (history ++ [a]) c in
  let rtt := Client.arrivedAt a - Client.clientTime a in
  Client.clockOffset c' =
    (inject_Z (Client.serverTime a)
     - (inject_Z (Client.clientTime a) + inject_Z rtt / 2))%Q /\
  (Client.clockOffset c' ==
     inject_Z (Client.serverTime a)
     - (inject_Z (Client.clientTime a) + inject_Z (Client.arrivedAt a)) / 2)%Q /\
  (forall c0, Client.clockOffset (Client.receive c0 a) = Client.clockOffset c') /\
  List.last (Client.console c') (Client.LogWelcome "") =
    Client.LogClockSync (Client.clockOffset c') rtt.
Proof.
  intros c' rtt. subst c' rtt. rewrite fold_left_app. cbn [fold_left].
  set (c1 := fold_left Client.receive history c).
  unfold Client.receive at 1 2 4 5. rewrite !on_sync_offset.
  split; [reflexivity |]. split; [| split].
  - unfold Zminus. rewrite inject_Z_plus, inject_Z_opp. field.
  - intros c0. unfold Client.receive. apply on_sync_offset.
  - unfold Client.receive, Client.on_sync. cbn [Client.console Client.clockOffset].
    rewrite last_last. reflexivity.
Qed.

(** ** Binary64 against the rational model *)

Lemma all_from_spec (fuel : nat) :
  forall z p, Double.all_from fuel z p = true ->
  forall s, z <= s < z + Z.of_nat fuel -> p s = true.
Proof.
  induction fuel as [|k IH]; intros z p H s Hs; [lia |].
  simpl in H. apply andb_true_iff in H. destruct H as [H1 H2].
  destruct (Z.eq_dec s z) as [-> | Hne]; [exact H1 |].
  apply (IH (z + 1) p H2). lia.
Qed.

Lemma agree_everywhere :
  Double.all_from (Z.to_nat 233280) 0 Double.agree = true.
Proof. vm_compute. reflexivity. Qed.

(** Whatever the generator state, the double [next()] returns falls on the
    same side of [0.2] as the rational of the model, its palette index is
    the same, and the split fraction computed from it is a double in
    [[0.3, 0.7)]. *)
Lemma double_agrees (g : SeededRandom) :
  valid g ->
  let s := seed (snd (next g)) in
  Double.stop s = Qltb (fst (next g)) (2 # 10) /\
  Double.colorIndex s = Some (Qfloor (fst (next g) * 3)%Q) /\
  Double.fractionInRange s = true.
Proof.
  intros [Hg _] s. pose proof (next_seed_range g Hg) as Hs. fold s in Hs.
  change (fst (next g)) with (s # 233280).
  assert (Hr : 0 <= s < 0 + Z.of_nat (Z.to_nat 233280))
    by (rewrite Z2Nat.id; lia).
  pose proof (all_from_spec _ _ _ agree_everywhere s Hr) as H.
  unfold Double.agree in H.
  apply andb_true_iff in H. destruct H as [H H3].
  apply andb_true_iff in H. destruct H as [H1 H2].
  apply Bool.eqb_prop in H1.
  split; [| split; [| exact H3]].
  - rewrite H1. unfold Qltb, Qle_bool. simpl.
    destruct (Z.ltb_spec s 46656), (Z.leb_spec 466560 (s * 10)); simpl; lia.
  - destruct (Double.colorIndex s) as [i |]; [| discriminate H2].
    apply Z.eqb_eq in H2. f_equal. rewrite H2.
    unfold Qfloor, Qmult. cbn [Qnum Qden].
    change (Z.pos (233280 * 1)) with 233280.
    destruct (Z.ltb_spec s 77760); [| destruct (Z.ltb_spec s 155520)];
      [apply (Z.div_unique _ _ 0 (s * 3)) |
                 apply (Z.div_unique _ _ 1 (s * 3 - 233280)) |
                 apply (Z.div_unique _ _ 2 (s * 3 - 466560))]; lia.
Qed.

(** * Further properties of the code *)

(** ** The generator: seeds, ranges, period *)

(** X1.  The constructor reduces every integer seed, negative ones and zero
    included, to its residue in [(0, 233280]]; two seeds give the same
    generator exactly when they are congruent modulo 233280. *)
Theorem new_congruent (s t : Z) :
  seed (new s) = (s - 1) mod 233280 + 1 /\
  0 < seed (new s) <= 233280 /\
  (new s = new t <-> s mod 233280 = t mod 233280).
Proof.
  assert (H : forall u, seed (new u) = (u - 1) mod 233280 + 1).
  { intros u. unfold new. cbn [seed].
    destruct (Z.leb_spec (Z.rem u 233280) 0);
      Z.to_euclidean_division_equations; lia. }
  split; [apply H |]. split; [rewrite H; Z.to_euclidean_division_equations; lia |].
  split.
  - intros E. apply (f_equal seed) in E. rewrite !H in E.
    Z.to_euclidean_division_equations; lia.
  - intros E. assert (Es : seed (new s) = seed (new t))
      by (rewrite !H; Z.to_euclidean_division_equations; lia).
    unfold new in *. cbn [seed] in Es. rewrite Es. reflexivity.
Qed.

(** X2.  Whatever the seed and however many draws were made before, [next]
    returns a number in [[0, 1)] and leaves the state in [[0, 233280)].
    The lower end is met: from state 22643 the next number is 0. *)
Theorem next_in_unit_interval (s : Z) (k : nat) :
  let g := advance k (new s) in
  (0 <= fst (next g) /\ fst (next g) < 1)%Q /\
  0 <= seed (snd (next g)) < 233280 /\
  fst (next (new 22643)) == 0.
Proof.
  intros g.
  assert (Hg : valid g).
  { subst g. generalize (proj1 (valid_new s)). generalize (new s).
    induction k as [|k IH]; intros h Hh; [exact Hh |].
    simpl. apply IH. apply valid_next. exact Hh. }
  split; [apply next_unit_interval; exact Hg |].
  split; [apply next_seed_range; apply Hg | reflexivity].
Qed.





Lemma next_seed_lcg (g : SeededRandom) : seed (snd (next g)) = Period.lcg (seed g).
Proof. reflexivity. Qed.

Lemma advance_seed (n : nat) :
  forall g, seed (advance n g) = Period.iter n (seed g).
Proof.
  induction n as [|n IH]; intros g; [reflexivity |].
  simpl. rewrite IH. reflexivity.
Qed.

Lemma lcg_range (s : Z) : 0 <= s -> 0 <= Period.lcg s < 233280.
Proof. intros Hs. unfold Period.lcg. apply Z.rem_bound_pos; lia. Qed.

Lemma iter_range (n : nat) :
  forall s, 0 <= s < 233280 -> 0 <= Period.iter n s < 233280.
Proof.
  induction n as [|n IH]; intros s Hs; [exact Hs |].
  simpl. apply IH. apply lcg_range. lia.
Qed.

Lemma iter_add (n k : nat) :
  forall s, Period.iter (n + k) s = Period.iter k (Period.iter n s).
Proof.
  induction n as [|n IH]; intros s; [reflexivity |]. simpl. apply IH.
Qed.

(** The transition is one-to-one on [[0, 233280)]: 9301 is invertible
    modulo 233280, with inverse 123901. *)
Lemma lcg_injective (s t : Z) :
  0 <= s < 233280 -> 0 <= t < 233280 ->
  Period.lcg s = Period.lcg t -> s = t.
Proof.
  intros Hs Ht E. unfold Period.lcg in E.
  rewrite !Z.rem_mod_nonneg in E by lia.
  pose proof (Z.div_mod (s * 9301 + 49297) 233280 ltac:(lia)) as Ds.
  pose proof (Z.div_mod (t * 9301 + 49297) 233280 ltac:(lia)) as Dt.
  rewrite E in Ds.
  set (qs := (s * 9301 + 49297) / 233280) in *.
  set (qt := (t * 9301 + 49297) / 233280) in *.
  set (r := (t * 9301 + 49297) mod 233280) in *.
  assert (Hk : s - t = 233280 * (123901 * (qs - qt) - 4940 * (s - t))) by lia.
  lia.
Qed.

Lemma iter_injective (n : nat) :
  forall s t, 0 <= s < 233280 -> 0 <= t < 233280 ->
              Period.iter n s = Period.iter n t -> s = t.
Proof.
  induction n as [|n IH]; intros s t Hs Ht E; [exact E |].
  simpl in E. apply lcg_injective; [exact Hs | exact Ht |].
  apply IH; [apply lcg_range; lia | apply lcg_range; lia | exact E].
Qed.

Lemma orbit_clear_spec (fuel : nat) :
  forall s t, Period.orbit_clear fuel s = Some t ->
    t = Period.iter fuel s /\
    forall k, (0 < k <= fuel)%nat -> Period.iter k s <> 0.
Proof.
  induction fuel as [|fuel IH]; intros s t H.
  - simpl in H. injection H as <-. split; [reflexivity | intros k Hk; lia].
  - simpl in H. destruct (Z.eqb_spec (Period.lcg s) 0) as [|Hne]; [discriminate |].
    destruct (IH _ _ H) as [Ht Hk]. split; [exact Ht |].
    intros [|k] Hle; [lia |]. simpl.
    destruct k as [|k]; [exact Hne | apply Hk; lia].
Qed.

Lemma orbit_of_zero :
  Period.orbit_clear (Z.to_nat 233279) 0 = Some 22643.
Proof. vm_compute. reflexivity. Qed.

Lemma period_nat : Period.PERIOD = S (Z.to_nat 233279).
Proof. unfold Period.PERIOD. rewrite <- Z2Nat.inj_succ by lia. reflexivity. Qed.

Lemma period_Z : Z.of_nat Period.PERIOD = 233280.
Proof. unfold Period.PERIOD. apply Z2Nat.id. lia. Qed.

Lemma zero_returns :
  Period.iter Period.PERIOD 0 = 0 /\
  forall k, (0 < k < Period.PERIOD)%nat -> Period.iter k 0 <> 0.
Proof.
  destruct (orbit_clear_spec _ _ _ orbit_of_zero) as [Hlast Hclear].
  rewrite period_nat. split.
  - replace (S (Z.to_nat 233279)) with (Z.to_nat 233279 + 1)%nat by lia.
    rewrite iter_add, <- Hlast. reflexivity.
  - intros k Hk. apply Hclear. lia.
Qed.

Lemma NoDup_map_on {A B : Type} (f : A -> B) (l : list A) :
  (forall a b, In a l -> In b l -> f a = f b -> a = b) ->
  List.NoDup l -> List.NoDup (map f l).
Proof.
  intros Hinj Hl. induction Hl as [|a l Ha Hl IH]; [constructor |].
  simpl. constructor.
  - intros Hin. apply in_map_iff in Hin. destruct Hin as (b & Hb & Hbl).
    apply Ha. rewrite (Hinj a b); [exact Hbl | left; reflexivity | right; exact Hbl |].
    symmetry. exact Hb.
  - apply IH. intros u v Hu Hv. apply Hinj; right; assumption.
Qed.

(** Every state is met on the way round from state 0. *)
Lemma every_state_on_orbit (s : Z) :
  0 <= s < 233280 -> exists k, (k < Period.PERIOD)%nat /\ Period.iter k 0 = s.
Proof.
  intros Hs. destruct zero_returns as [_ Hclear].
  set (orbit := map (fun k => Period.iter k 0) (seq 0 Period.PERIOD)).
  set (states := map Z.of_nat (seq 0 Period.PERIOD)).
  assert (Hnd : List.NoDup orbit).
  { apply NoDup_map_on; [| apply List.seq_NoDup].
    intros i j Hi Hj E. apply in_seq in Hi, Hj.
    destruct (Nat.lt_trichotomy i j) as [Hlt | [Heq | Hgt]]; [| exact Heq |].
    - exfalso. apply (Hclear (j - i)%nat); [lia |].
      apply (iter_injective i); [apply iter_range; lia | lia |].
      rewrite <- iter_add. replace (j - i + i)%nat with j by lia.
      symmetry. exact E.
    - exfalso. apply (Hclear (i - j)%nat); [lia |].
      apply (iter_injective j); [apply iter_range; lia | lia |].
      rewrite <- iter_add. replace (i - j + j)%nat with i by lia. exact E. }
  assert (Hincl : incl orbit states).
  { intros z Hz. apply in_map_iff in Hz. destruct Hz as (k & <- & _).
    pose proof (iter_range k 0 ltac:(lia)) as Hr.
    apply in_map_iff. exists (Z.to_nat (Period.iter k 0)).
    split; [lia |]. apply in_seq. pose proof period_Z. lia. }
  assert (Hlen : (length states <= length orbit)%nat)
    by (unfold states, orbit; rewrite !length_map; lia).
  pose proof (List.NoDup_length_incl Hnd Hlen Hincl) as Hback.
  assert (Hin : In s states).
  { apply in_map_iff. exists (Z.to_nat s). split; [lia |].
    apply in_seq. pose proof period_Z. lia. }
  apply Hback in Hin. apply in_map_iff in Hin. destruct Hin as (k & Hk & Hkin).
  apply in_seq in Hkin. exists k. split; [lia | exact Hk].
Qed.

(** X5.  The generator has full period: from any state of a generator that
    has drawn at least once, 233280 further draws bring the state back,
    and no smaller positive number of draws does; so within one period
    every state, and every output [k / 233280], occurs exactly once. *)
Theorem full_period (g : SeededRandom) :
  0 <= seed g < 233280 ->
  seed (advance Period.PERIOD g) = seed g /\
  (forall n, (0 < n < Period.PERIOD)%nat -> seed (advance n g) <> seed g) /\
  (forall s, 0 <= s < 233280 ->
     exists n, (n < Period.PERIOD)%nat /\ seed (advance n g) = s).
Proof.
  intros Hg. destruct zero_returns as [Hret Hclear].
  destruct (every_state_on_orbit (seed g) Hg) as (k & Hk & Ek).
  assert (Hcomm : forall n, Period.iter n (seed g) = Period.iter k (Period.iter n 0)).
  { intros n. rewrite <- Ek, <- !iter_add. f_equal. lia. }
  split; [| split].
  - rewrite advance_seed, Hcomm, Hret. exact Ek.
  - intros n Hn E. rewrite advance_seed, Hcomm in E. rewrite <- Ek in E.
    apply iter_injective in E; [| apply iter_range; lia | lia].
    apply (Hclear n Hn). exact E.
  - intros s Hs. destruct (every_state_on_orbit s Hs) as (j & Hj & Ej).
    destruct (le_lt_dec k j) as [Hle | Hlt].
    + exists (j - k)%nat. split; [lia |]. rewrite advance_seed, <- Ek, <- iter_add.
      replace (k + (j - k))%nat with j by lia. exact Ej.
    + exists (Period.PERIOD - k + j)%nat. split; [lia |].
      rewrite advance_seed, <- Ek, <- iter_add.
      replace (k + (Period.PERIOD - k + j))%nat with (Period.PERIOD + j)%nat by lia.
      rewrite iter_add, Hret. exact Ej.
Qed.

Lemma full_period_witness :
  seed (advance Period.PERIOD (snd (next (new 42)))) = 206659.
Proof.
  destruct (full_period (snd (next (new 42)))) as [H _].
  - vm_compute. split; [discriminate | reflexivity].
  - rewrite H. reflexivity.
Defined.

(** ** The partitioner: cost, size and shape of the result *)

Section ActivationCost.
Context {A : Type} (leaf : Block -> list A)
        (rec : Block -> SeededRandom -> list A * SeededRandom) (cost : nat).
Hypothesis rec_cost : forall b g, (draws (snd (rec b g)) <= draws g + cost)%nat.

Lemma visit_cost block depth g :
  (draws (snd (visit leaf rec block depth g)) <= draws g + (2 + 2 * cost))%nat.
Proof.
  unfold visit, subdivide.
  repeat match goal with
  | |- context [if ?c then _ else _] => destruct c
  | |- context [let (_, _) := next ?g in _] =>
      pose proof (next_draws g); destruct (next g)
  | |- context [let (_, _) := rec ?b ?g in _] =>
      pose proof (rec_cost b g); destruct (rec b g)
  end; cbn [fst snd] in *; lia.
Qed.
End ActivationCost.

(** X6.  A call of [generateBlocks] makes at most [2 * 2^n - 2] draws,
    [n] being the number of levels left, [maxDepth - depth]: two for every
    activation that splits.  The renderer therefore starts at a position
    of the stream bounded by the depth alone. *)
Theorem generateBlocks_draws_bound (block : Block) (depth maxDepth : Z)
        (rng : SeededRandom) :
  (draws (snd (generateBlocks block depth maxDepth rng))
   <= draws rng + (2 * 2 ^ Z.to_nat (maxDepth - depth) - 2))%nat.
Proof.
  revert block rng. pattern depth. apply (depth_ind maxDepth); clear depth.
  - intros d Hd block rng. rewrite generateBlocks_terminal by lia. simpl. lia.
  - intros d Hd IH block rng. rewrite generateBlocks_visit by lia.
    replace (Z.to_nat (maxDepth - d)) with (S (Z.to_nat 
      (maxDepth - (d + 1)))) by lia.
    rewrite Nat.pow_succ_r'.
    pose proof (Nat.pow_nonzero 2 (Z.to_nat (maxDepth - (d + 1))) ltac:(lia)).
    pose proof (visit_cost (fun b => [b])
                  (fun b g => generateBlocks b (d + 1) maxDepth g)
                  _ IH block d rng).
    lia.
Qed.

(** X7.  A block with no side above the minimum is never split, at any
    depth: the call returns [[block]], after at most the one draw of the
    stop test.  (A 150 x 150 block is not "small" for the first test, and
    still is not split.) *)
Theorem no_side_above_minimum (block : Block) (depth maxDepth : Z)
        (rng : SeededRandom) :
  width block <= MIN_BLOCK_SIZE -> height block <= MIN_BLOCK_SIZE ->
  fst (generateBlocks block depth maxDepth rng) = [block] /\
  (draws (snd (generateBlocks block depth maxDepth rng)) <= S (draws rng))%nat.
Proof.
  intros Hw Hh. rewrite generateBlocks_eq.
  destruct (depth >=? maxDepth); [simpl; split; [reflexivity | lia] |].
  unfold visit, subdivide.
  destruct ((width block <? MIN_BLOCK_SIZE) && (height block <? MIN_BLOCK_SIZE));
    [simpl; split; [reflexivity | lia] |].
  pose proof (next_draws rng) as Hd. destruct (next rng) as [r rng1].
  cbn [snd] in Hd.
  destruct (Qltb r (2 # 10) && (depth >? 0)); [simpl; split; [reflexivity | lia] |].
  assert (H1 : (height block >? MIN_BLOCK_SIZE) = false)
    by (rewrite Z.gtb_ltb; apply Z.ltb_ge; exact Hh).
  assert (H2 : (width block >? MIN_BLOCK_SIZE) = false)
    by (rewrite Z.gtb_ltb; apply Z.ltb_ge; exact Hw).
  rewrite H1, H2, !andb_false_r. simpl. split; [reflexivity | lia].
Qed.

Lemma no_side_above_minimum_witness :
  let b := {| x := 0; y := 0; width := 150; height := 150 |} in
  fst (generateBlocks b 0 6 (new 42)) = [b].
Proof.
  intros b. apply (no_side_above_minimum b 0 6 (new 42)); vm_compute; discriminate.
Defined.

Lemma total_area_app (l1 l2 : list Block) :
  total_area (l1 ++ l2) = total_area l1 + total_area l2.
Proof.
  unfold total_area. induction l1 as [|b l IH]; simpl; [reflexivity |].
  rewrite IH. lia.
Qed.

Section ActivationArea.
Variable rec : Block -> SeededRandom -> list Block * SeededRandom.
Hypothesis rec_area : forall b g, total_area (fst (rec b g)) = area b.

Lemma visit_area block depth g :
  total_area (fst (visit (fun b => [b]) rec block depth g)) = area block.
Proof.
  unfold visit, subdivide.
  repeat match goal with
  | |- context [if ?c then _ else _] => destruct c
  | |- context [let (_, _) := next ?g in _] => destruct (next g)
  | |- context [let (_, _) := rec ?b ?g in _] =>
      pose proof (rec_area b g); destruct (rec b g)
  end; cbn [fst snd] in *; rewrite ?total_area_app;
    unfold total_area, area in *; simpl in *; lia.
Qed.
End ActivationArea.

(** X8.  The areas of the returned blocks add up to the area of the input
    block, for every block, depth and generator state whatever (also one
    no constructor produces): a cut hands the two parts exactly the extent
    it takes from the whole. *)
Theorem generateBlocks_area (block : Block) (depth maxDepth : Z)
        (rng : SeededRandom) :
  total_area (fst (generateBlocks block depth maxDepth rng)) = area block.
Proof.
  revert block rng. pattern depth. apply (depth_ind maxDepth); clear depth.
  - intros d Hd block rng. rewrite generateBlocks_terminal by lia.
    unfold total_area. simpl. lia.
  - intros d Hd IH block rng. rewrite generateBlocks_visit by lia.
    apply visit_area. exact IH.
Qed.

(** A cut leaves each part more than three tenths of the side, less one. *)
Lemma splitAt_share (origin extent : Z) (g : SeededRandom) :
  valid g -> 0 < extent ->
  let sp := splitAt origin extent (fst (next g)) in
  3 * extent - 10 < 10 * (sp - origin) /\ 10 * (sp - origin) < 7 * extent.
Proof.
  intros Hg He sp. destruct (next_unit_interval g Hg) as [H0 H1].
  set (r := fst (next g)) in *. unfold splitAt in sp.
  set (v := (inject_Z origin + inject_Z extent * (r * (4 # 10) + (3 # 10)))%Q) in *.
  pose proof (Qfloor_le v) as Hlo. pose proof (Qlt_floor v) as Hhi.
  fold sp in Hlo, Hhi. rewrite inject_Z_plus in Hhi.
  assert (Hext : (0 < inject_Z extent)%Q) by (rewrite <- (Zlt_Qlt 0); exact He).
  unfold v in Hlo, Hhi. change (inject_Z 1) with 1%Q in Hhi.
  pose proof (Qmult_le_0_compat (inject_Z extent) r ltac:(lra) H0) as Hp.
  pose proof (Qmult_lt_0_compat (inject_Z extent) (1 - r) Hext ltac:(lra)) as Hq.
  split; rewrite Zlt_Qlt; unfold Z.sub;
    repeat (rewrite inject_Z_plus || rewrite inject_Z_mult || rewrite inject_Z_opp);
    change (inject_Z 3) with 3%Q; change (inject_Z 10) with 10%Q;
    change (inject_Z 7) with 7%Q; change (inject_Z (-10)) with (-10)%Q;
    set (e := inject_Z extent) in *; set (o := inject_Z origin) in *;
    set (s := inject_Z sp) in *; lra.
Qed.

Section ActivationShape.
Variables (lowW lowH : Z).
Hypothesis lowW_le : lowW <= 45.
Hypothesis lowH_le : lowH <= 45.
Variable rec : Block -> SeededRandom -> list Block * SeededRandom.

Hypothesis rec_shape :
  forall b g, valid g -> lowW <= width b -> lowH <= height b ->
    Forall (shaped lowW lowH b) (fst (rec b g)) /\ valid (snd (rec b g)).

Lemma shaped_inside (outer mid : Block) (l : list Block) :
  inside outer mid -> Forall (shaped lowW lowH mid) l -> Forall (shaped lowW lowH outer) l.
Proof.
  intros Hin. apply List.Forall_impl. intros b (Hb & Hw & Hh).
  split; [| split; assumption]. unfold inside in *. lia.
Qed.

Lemma visit_shape block depth g :
  valid g -> lowW <= width block -> lowH <= height block ->
  Forall (shaped lowW lowH block) (fst (visit (fun b => [b]) rec block depth g)) /\
  valid (snd (visit (fun b => [b]) rec block depth g)).
Proof.
  intros Hg Hw Hh.
  assert (Hself : Forall (shaped lowW lowH block) [block]).
  { constructor; [| constructor]. unfold shaped, inside. lia. }
  unfold visit.
  destruct ((width block <? MIN_BLOCK_SIZE) && (height block <? MIN_BLOCK_SIZE));
    [split; [exact Hself | exact Hg] |].
  pose proof (valid_next g Hg) as Hg1. destruct (next g) as [r g1].
  cbn [snd] in Hg1.
  destruct (Qltb r (2 # 10) && (depth >? 0)); [split; [exact Hself | exact Hg1] |].
  unfold subdivide.
  destruct ((height block >? width block) && (height block >? MIN_BLOCK_SIZE))
    eqn:Eh; [| destruct ((width block >? height block) && (width block >? MIN_BLOCK_SIZE))
                 eqn:Ew; [| split; [exact Hself | exact Hg1]]].
  - apply andb_true_iff in Eh. destruct Eh as [_ Eh].
    rewrite Z.gtb_ltb, Z.ltb_lt in Eh. unfold MIN_BLOCK_SIZE in Eh.
    pose proof (splitAt_share (y block) (height block) g1 Hg1 ltac:(lia)) as Hsp.
    pose proof (valid_next g1 Hg1) as Hg2.
    destruct (next g1) as [r' g2]. cbn [fst snd] in Hsp, Hg2. cbv zeta in Hsp.
    set (sp := splitAt (y block) (height block) r') in *.
    match goal with |- context [rec ?a g2] =>
      destruct (rec_shape a g2 Hg2) as [Sa Va]; [simpl; lia | simpl; lia |];
      pose proof (shaped_inside block a _ ltac:(unfold inside; simpl; lia) Sa);
      destruct (rec a g2) as [front g3]
    end.
    match goal with |- context [rec ?b g3] =>
      destruct (rec_shape b g3 Va) as [Sb Vb]; [simpl; lia | simpl; lia |];
      pose proof (shaped_inside block b _ ltac:(unfold inside; simpl; lia) Sb);
      destruct (rec b g3) as [back g4]
    end.
    cbn [fst snd] in *. split; [apply List.Forall_app; split; assumption | exact Vb].
  - apply andb_true_iff in Ew. destruct Ew as [_ Ew].
    rewrite Z.gtb_ltb, Z.ltb_lt in Ew. unfold MIN_BLOCK_SIZE in Ew.
    pose proof (splitAt_share (x block) (width block) g1 Hg1 ltac:(lia)) as Hsp.
    pose proof (valid_next g1 Hg1) as Hg2.
    destruct (next g1) as [r' g2]. cbn [fst snd] in Hsp, Hg2. cbv zeta in Hsp.
    set (sp := splitAt (x block) (width block) r') in *.
    match goal with |- context [rec ?a g2] =>
      destruct (rec_shape a g2 Hg2) as [Sa Va]; [simpl; lia | simpl; lia |];
      pose proof (shaped_inside block a _ ltac:(unfold inside; simpl; lia) Sa);
      destruct (rec a g2) as [front g3]
    end.
    match goal with |- context [rec ?b g3] =>
      destruct (rec_shape b g3 Va) as [Sb Vb]; [simpl; lia | simpl; lia |];
      pose proof (shaped_inside block b _ ltac:(unfold inside; simpl; lia) Sb);
      destruct (rec b g3) as [back g4]
    end.
    cbn [fst snd] in *. split; [apply List.Forall_app; split; assumption | exact Vb].
Qed.
End ActivationShape.

Lemma generateBlocks_shape (lowW lowH maxDepth depth : Z) :
  lowW <= 45 -> lowH <= 45 ->
  forall block rng,
    valid rng -> lowW <= width block -> lowH <= height block ->
    Forall (shaped lowW lowH block) (fst (generateBlocks block depth maxDepth rng)) /\
    valid (snd (generateBlocks block depth maxDepth rng)).
Proof.
  intros HW HH. pattern depth. apply (depth_ind maxDepth); clear depth.
  - intros d Hd block rng Hg Hw Hh. rewrite generateBlocks_terminal by lia.
    split; [| exact Hg]. constructor; [| constructor].
    unfold shaped, inside. lia.
  - intros d Hd IH block rng Hg Hw Hh. rewrite generateBlocks_visit by lia.
    apply visit_shape; assumption.
Qed.



(** ** The renderer: a whole frame *)

Lemma Fills_functional (colorChance : Q) (blocks : list Block) :
  forall g fills1 g1 fills2 g2,
    Fills colorChance blocks g fills1 g1 ->
    Fills colorChance blocks g fills2 g2 ->
    fills1 = fills2 /\ g1 = g2.
Proof.
  induction blocks as [|b bs IH]; intros g fills1 g1 fills2 g2 H1 H2.
  - inversion H1; inversion H2; subst. split; reflexivity.
  - inversion H1; subst; inversion H2; subst;
      repeat match goal with
      | Ha : next ?g = _, Hb : next ?g = _ |- _ =>
          rewrite Ha in Hb; injection Hb as <- <-
      end.
    + match goal with
      | Ha : Render.palette ?i = Some _, Hb : Render.palette ?i = Some _ |- _ =>
          rewrite Ha in Hb; injection Hb as <-
      end.
      match goal with
      | Ha : Fills _ bs ?g _ _, Hb : Fills _ bs ?g _ _ |- _ =>
          destruct (IH _ _ _ _ _ Ha Hb) as [<- <-]
      end. split; reflexivity.
    + exfalso. eapply Qlt_not_le; eassumption.
    + exfalso. eapply Qlt_not_le; eassumption.
    + match goal with
      | Ha : Fills _ bs ?g _ _, Hb : Fills _ bs ?g _ _ |- _ =>
          destruct (IH _ _ _ _ _ Ha Hb) as [<- <-]
      end. split; reflexivity.
Qed.

Lemma Fills_rects (colorChance : Q) (blocks : list Block) g fills g' :
  Fills colorChance blocks g fills g' -> map rect_of fills = blocks.
Proof.
  induction 1; simpl; [reflexivity | |];
    (f_equal; [destruct b; reflexivity | assumption]).
Qed.


(** ** The server: registry, presence count, broadcasts *)

Lemma on_connection_effect (env : Server.Env) (socketId : string) (st : Server.State) :
  Server.on_connection env socketId st =
  (tt,
   let clients :=
     <[socketId := {| Server.id := socketId;
                      Server.connectedAt := Server.nowAt env (Server.nowCalls st) |}]>
       (Server.connectedClients st) in
   {| Server.connectedClients := clients;
      Server.emitted :=
        (Server.emitted st ++
         [Server.SocketEmit socketId
            (Server.WelcomeEvent socketId
               (Server.nowAt env (S (Server.nowCalls st))))]) ++
        [Server.IoEmit (Server.UserCountEvent (size clients))];
      Server.console := Server.console st ++ [Server.LogConnected socketId];
      Server.randomCalls := Server.randomCalls st;
      Server.nowCalls := S (S (Server.nowCalls st)) |}).
Proof. reflexivity. Qed.

Lemma on_disconnect_effect (socketId : string) (st : Server.State) :
  Server.on_disconnect socketId st =
  (tt,
   let clients := delete socketId (Server.connectedClients st) in
   {| Server.connectedClients := clients;
      Server.emitted :=
        Server.emitted st ++ [Server.IoEmit (Server.UserCountEvent (size clients))];
      Server.console := Server.console st ++ [Server.LogDisconnected socketId];
      Server.randomCalls := Server.randomCalls st;
      Server.nowCalls := Server.nowCalls st |}).
Proof. reflexivity. Qed.

Lemma lastUserCount_snoc (es : list Server.Emission) (e : Server.Emission) :
  Loop.lastUserCount (es ++ [e]) =
  match e with
  | Server.IoEmit (Server.UserCountEvent n) => Some n
  | _ => Loop.lastUserCount es
  end.
Proof. unfold Loop.lastUserCount. rewrite fold_left_app. reflexivity. Qed.

(** The tick that finds an audience, written out. *)
Lemma tick_busy_effect (env : Server.Env) (st : Server.State) :
  size (Server.connectedClients st) <> 0%nat ->
  let n := Server.nowCalls st in
  let k := Server.randomCalls st in
  let seed := Server.nowAt env n in
  let depth := Qfloor (Server.randomAt env k * 3)%Q + 4 in
  let colorChance := (Server.randomAt env (S k) * (2 # 10) + (2 # 10))%Q in
  let lineWeight := Qfloor (Server.randomAt env (S (S k)) * 19)%Q + 12 in
  let both := Qltb (1 # 2) (Server.randomAt env (3 + k)) in
  let freq i := (Server.randomAt env i * inject_Z (880 - 220) + 220)%Q in
  let frequencies := if both then [freq (4 + k)%nat; freq (5 + k)%nat]
                     else [freq (4 + k)%nat] in
  snd (Server.tick env st) =
  {| Server.connectedClients := Server.connectedClients st;
     Server.emitted :=
       Server.emitted st ++
       [Server.IoEmit (Server.GenerationEvent (Server.nowAt env (S n)) seed depth
                         colorChance lineWeight Server.GENERATION_INTERVAL);
        Server.IoEmit (Server.AudioEvent (Server.nowAt env (S (S n))) frequencies 5)];
     Server.console :=
       Server.console st ++
       [Server.LogGenerated seed depth (size (Server.connectedClients st));
        Server.LogAudio (map Server.Math_round frequencies)];
     Server.randomCalls := ((if both then 6 else 5) + k)%nat;
     Server.nowCalls := (3 + n)%nat |}.
Proof.
  intros Hbusy. apply Nat.eqb_neq in Hbusy. cbv zeta.
  destruct (Qltb (1 # 2) (Server.randomAt env (3 + Server.randomCalls st))) eqn:E;
    unfold Server.tick, Server.generateAndBroadcast;
    unfold Server.bind at 1; unfold Server.clients_size at 1; rewrite Hbusy;
    cbv beta iota zeta delta
      [Server.bind Server.clients_size
       Server.generateRandomParams Server.getRandomFrequency Server.Date_now
       Server.Math_random Server.send Server.console_log Server.ret
       Server.connectedClients Server.emitted Server.console
       Server.randomCalls Server.nowCalls];
    match goal with
    | |- context [if Qltb ?a ?b then _ else _] =>
        change (Qltb a b)
          with (Qltb (1 # 2) (Server.randomAt env (3 + Server.randomCalls st)));
        rewrite E
    end;
    cbn [snd]; rewrite <- !app_assoc; reflexivity.
Qed.

Lemma tick_idle_effect (env : Server.Env) (st : Server.State) :
  size (Server.connectedClients st) = 0%nat -> snd (Server.tick env st) = st.
Proof.
  intros Hidle.
  unfold Server.tick, Server.generateAndBroadcast, Server.bind, Server.clients_size.
  rewrite Hidle. reflexivity.
Qed.

(** What a tick leaves of the state it found: the registry, and the latest
    presence count on the wire. *)
Lemma tick_keeps_presence (env : Server.Env) (st : Server.State) :
  Server.connectedClients (snd (Server.tick env st)) = Server.connectedClients st /\
  Loop.lastUserCount (Server.emitted (snd (Server.tick env st))) =
    Loop.lastUserCount (Server.emitted st).
Proof.
  destruct (Nat.eq_dec (size (Server.connectedClients st)) 0%nat) as [Hidle | Hbusy].
  - rewrite (tick_idle_effect env st Hidle). split; reflexivity.
  - rewrite (tick_busy_effect env st Hbusy). cbn [Server.connectedClients Server.emitted].
    split; [reflexivity |].
    match goal with
    | |- context [Server.emitted st ++ [?a; ?b]] =>
        replace (Server.emitted st ++ [a; b])
          with ((Server.emitted st ++ [a]) ++ [b])
          by (rewrite <- app_assoc; reflexivity)
    end.
    rewrite !lastUserCount_snoc. reflexivity.
Qed.

(** X11.  The presence count on the wire is never stale: after any
    sequence of connections, joins, sync requests, disconnections and
    ticks, starting from the empty server, the latest [users] broadcast
    carries the present size of the registry; if there was none yet, the
    registry is still empty.  And every entry of the registry is filed
    under its own id. *)
Theorem presence_count_is_current (env : Server.Env) (inputs : list Loop.Input) :
  let st := Loop.serve env inputs Server.initial in
  (Loop.lastUserCount (Server.emitted st) = Some (size (Server.connectedClients st)) \/
   (Loop.lastUserCount (Server.emitted st) = None /\
    Server.connectedClients st = ∅)) /\
  (forall k c, Server.connectedClients st !! k = Some c -> Server.id c = k).
Proof.
  intros st. subst st. unfold Loop.serve.
  induction inputs as [|i inputs IH] using rev_ind.
  - split; [right; split; reflexivity | intros k c H; discriminate H].
  - rewrite fold_left_app. cbn [fold_left].
    set (st := fold_left (fun s i => snd (Loop.handle env i s)) inputs Server.initial) in *.
    destruct IH as [Hcount Hid].
    destruct i as [sid | sid ua | sid t | sid |]; cbn [Loop.handle].
    + rewrite on_connection_effect. cbn [snd Server.emitted Server.connectedClients].
      rewrite lastUserCount_snoc. split; [left; reflexivity |].
      intros k c H. destruct (decide (sid = k)) as [<- | Hne].
      * rewrite lookup_insert_eq in H. injection H as <-. reflexivity.
      * rewrite lookup_insert_ne in H by exact Hne. apply Hid. exact H.
    + split; [exact Hcount | exact Hid].
    + cbn [snd Server.on_sync_request Server.bind Server.Date_now Server.send
             Server.emitted Server.connectedClients].
      rewrite lastUserCount_snoc. split; [exact Hcount | exact Hid].
    + rewrite on_disconnect_effect. cbn [snd Server.emitted Server.connectedClients].
      rewrite lastUserCount_snoc. split; [left; reflexivity |].
      intros k c H. apply lookup_delete_Some in H. apply Hid. apply H.
    + destruct (tick_keeps_presence env st) as [Hc He]. rewrite Hc, He.
      split; [exact Hcount | exact Hid].
Qed.

(** X12.  A connection files the socket under its id, stamped with the
    clock; sends the welcome, carrying that id, to that socket alone; and
    then broadcasts the new count, which is one more than before when the
    id is new and the same when it was already filed. *)
Theorem connection_registers (env : Server.Env) (socketId : string)
        (st : Server.State) :
  let st' := snd (Server.on_connection env socketId st) in
  Server.connectedClients st' !! socketId =
    Some {| Server.id := socketId;
            Server.connectedAt := Server.nowAt env (Server.nowCalls st) |} /\
  (forall other, other <> socketId ->
     Server.connectedClients st' !! other = Server.connectedClients st !! other) /\
  Server.emitted st' =
    Server.emitted st ++
    [Server.SocketEmit socketId
       (Server.WelcomeEvent socketId (Server.nowAt env (S (Server.nowCalls st))));
     Server.IoEmit (Server.UserCountEvent (size (Server.connectedClients st')))] /\
  size (Server.connectedClients st') =
    match Server.connectedClients st !! socketId with
    | Some _ => size (Server.connectedClients st)
    | None => S (size (Server.connectedClients st))
    end.
Proof.
  intros st'. subst st'. rewrite on_connection_effect.
  cbn [snd Server.connectedClients Server.emitted].
  split; [apply lookup_insert_eq |].
  split; [intros other Hne; apply lookup_insert_ne; congruence |].
  split; [rewrite <- app_assoc; reflexivity |].
  destruct (Server.connectedClients st !! socketId) as [c |] eqn:E.
  - rewrite <- (insert_delete_id _ _ _ E) at 2.
    rewrite <- insert_delete_eq.
    rewrite !map_size_insert_None by apply lookup_delete_eq. reflexivity.
  - apply map_size_insert_None. exact E.
Qed.

(** X13.  Connecting a new socket and disconnecting it again leaves the
    registry as it was; the two presence broadcasts carry the count plus
    one and then the count. *)
Theorem connect_disconnect_round_trip (env : Server.Env) (socketId : string)
        (st : Server.State) :
  Server.connectedClients st !! socketId = None ->
  let st' := snd (Server.on_disconnect socketId
                    (snd (Server.on_connection env socketId st))) in
  Server.connectedClients st' = Server.connectedClients st /\
  Server.emitted st' =
    Server.emitted st ++
    [Server.SocketEmit socketId
       (Server.WelcomeEvent socketId (Server.nowAt env (S (Server.nowCalls st))));
     Server.IoEmit (Server.UserCountEvent (S (size (Server.connectedClients st))));
     Server.IoEmit (Server.UserCountEvent (size (Server.connectedClients st)))].
Proof.
  intros Hnew st'. subst st'.
  rewrite on_connection_effect, on_disconnect_effect.
  cbn [snd Server.connectedClients Server.emitted].
  rewrite delete_insert_eq, (delete_id _ _ Hnew),
    (map_size_insert_None _ _ _ Hnew), <- !app_assoc.
  split; reflexivity.
Qed.

Lemma connect_disconnect_round_trip_witness :
  let env := {| Server.randomAt := fun _ => 1 # 2; Server.nowAt := fun n => Z.of_nat n |} in
  Server.connectedClients
    (snd (Server.on_disconnect "a" (snd (Server.on_connection env "a" Server.initial))))
  = Server.connectedClients Server.initial.
Proof.
  intros env.
  apply (connect_disconnect_round_trip env "a" Server.initial). reflexivity.
Defined.

(** X14.  A disconnection of a socket that is not filed changes nothing in
    the registry, and still broadcasts the count. *)
Theorem disconnect_unknown (socketId : string) (st : Server.State) :
  Server.connectedClients st !! socketId = None ->
  let st' := snd (Server.on_disconnect socketId st) in
  Server.connectedClients st' = Server.connectedClients st /\
  Server.emitted st' =
    Server.emitted st ++
    [Server.IoEmit (Server.UserCountEvent (size (Server.connectedClients st)))].
Proof.
  intros Hnone st'. subst st'. rewrite on_disconnect_effect.
  cbn [snd Server.connectedClients Server.emitted].
  rewrite (delete_id _ _ Hnone). split; reflexivity.
Qed.

Lemma disconnect_unknown_witness :
  Server.connectedClients (snd (Server.on_disconnect "ghost" Server.initial)) =
  Server.connectedClients Server.initial.
Proof. apply (disconnect_unknown "ghost" Server.initial). reflexivity. Defined.

(** ** The server: what a broadcast carries *)

Lemma floor_scaled (r : Q) (n : Z) :
  0 < n -> (0 <= r)%Q -> (r < 1)%Q -> 0 <= Qfloor (r * inject_Z n)%Q < n.
Proof.
  intros Hn H0 H1.
  assert (Hq : (0 < inject_Z n)%Q) by (rewrite <- (Zlt_Qlt 0); exact Hn).
  set (q := inject_Z n) in *.
  assert (Hlo : (inject_Z 0 <= r * q)%Q) by (change (inject_Z 0) with 0%Q; nra).
  assert (Hhi : (r * q < q)%Q) by nra.
  apply Qfloor_resp_le in Hlo. rewrite Qfloor_Z in Hlo. split; [exact Hlo |].
  rewrite Zlt_Qlt. eapply Qle_lt_trans; [apply Qfloor_le | exact Hhi].
Qed.





(** ** The clock estimator, end to end *)

(** X17.  One sync round between the two programs.  The client's clock
    reads [t0] when it sends the request; the request travels [L1] ms, the
    reply [L2] ms; the server's clock is [theta] ms ahead of the client's.
    The server answers the requesting socket alone, echoing [t0], and the
    offset the client then computes is [theta + (L1 - L2) / 2]: off by at
    most half the round trip, and exact when the two delays are equal, in
    which case [getServerTime] returns the server's clock. *)
Theorem sync_round_trip (env : Server.Env) (st : Server.State) (socketId : string)
        (c : Client.MondrianSocketClient) (t0 L1 L2 theta : Z) :
  0 <= L1 -> 0 <= L2 ->
  Server.nowAt env (Server.nowCalls st) = t0 + L1 + theta ->
  exists serverTime,
    Server.emitted (snd (Server.on_sync_request env socketId t0 st)) =
      Server.emitted st ++ [Server.SocketEmit socketId (Server.SyncEvent serverTime t0)] /\
    Server.connectedClients (snd (Server.on_sync_request env socketId t0 st)) =
      Server.connectedClients st /\
    let c' := Client.on_sync (t0 + L1 + L2) serverTime t0 c in
    let rtt := inject_Z (L1 + L2) in
    (Client.clockOffset c' == inject_Z theta + (inject_Z L1 - inject_Z L2) / 2 /\
     inject_Z theta - rtt / 2 <= Client.clockOffset c' /\
     Client.clockOffset c' <= inject_Z theta + rtt / 2)%Q /\
    (L1 = L2 ->
     forall now, Client.getServerTime now c' == inject_Z (now + theta)).
Proof.
  intros H1 H2 Hclock. exists (t0 + L1 + theta).
  split; [cbn; rewrite Hclock; reflexivity |]. split; [reflexivity |].
  cbv zeta. unfold Client.getServerTime. rewrite on_sync_offset.
  replace (t0 + L1 + L2 - t0) with (L1 + L2) by lia.
  split.
  - assert (Q1 : (0 <= inject_Z L1)%Q) by (rewrite <- (Zle_Qle 0); exact H1).
    assert (Q2 : (0 <= inject_Z L2)%Q) by (rewrite <- (Zle_Qle 0); exact H2).
    rewrite !inject_Z_plus.
    set (a := inject_Z L1) in *. set (b := inject_Z L2) in *.
    set (t := inject_Z t0). set (h := inject_Z theta).
    assert (E : (t + a + h - (t + (a + b) / 2) == h + (a - b) / 2)%Q) by field.
    rewrite E. clearbody a b t h. split; [reflexivity |].
    unfold Qdiv. change (/ 2)%Q with (1 # 2)%Q. split; lra.
  - intros -> now. rewrite !inject_Z_plus. field.
Qed.

Lemma sync_round_trip_witness :
  let env := {| Server.randomAt := fun _ => 1 # 2;
                Server.nowAt := fun _ => 1000 + 40 + 250 |} in
  exists serverTime,
    Server.emitted (snd (Server.on_sync_request env "a" 1000 Server.initial)) =
      [Server.SocketEmit "a" (Server.SyncEvent serverTime 1000)] /\
    Client.clockOffset (Client.on_sync (1000 + 40 + 40) serverTime 1000 Client.create)
    == 250.
Proof.
  intros env.
  destruct (sync_round_trip env Server.initial "a" Client.create 1000 40 40 250)
    as (serverTime & Hsent & _ & (Hoff & _) & _); [lia | lia | reflexivity |].
  exists serverTime. split; [exact Hsent |]. rewrite Hoff. reflexivity.
Defined.

(** X18.  The first estimate, taken from the welcome message, is short by
    the whole one-way delay: with the server's clock [theta] ms ahead and
    the welcome [L] ms on its way, the client files the id it was given and
    sets its offset to [theta - L]. *)
Theorem welcome_offset (env : Server.Env) (st : Server.State) (socketId : string)
        (c : Client.MondrianSocketClient) (sent L theta : Z) :
  Server.nowAt env (S (Server.nowCalls st)) = sent + theta ->
  exists serverTime,
    In (Server.SocketEmit socketId (Server.WelcomeEvent socketId serverTime))
       (Server.emitted (snd (Server.on_connection env socketId st))) /\
    let c' := Client.on_welcome (sent + L) socketId serverTime c in
    Client.clockOffset c' = inject_Z (theta - L) /\
    Client.clientId c' = Some socketId /\
    forall now, Client.getServerTime now c' == inject_Z (now + theta - L).
Proof.
  intros Hclock. exists (sent + theta). split.
  - rewrite on_connection_effect. cbn [snd Server.emitted]. rewrite Hclock.
    apply in_or_app. left. apply in_or_app. right. left. reflexivity.
  - cbv zeta. unfold Client.on_welcome, Client.getServerTime.
    cbn [Client.clockOffset Client.clientId].
    replace (sent + theta - (sent + L)) with (theta - L) by lia.
    split; [reflexivity |]. split; [reflexivity |].
    intros now. rewrite <- inject_Z_plus.
    replace (now + (theta - L)) with (now + theta - L) by lia. reflexivity.
Qed.

Lemma welcome_offset_witness :
  let env := {| Server.randomAt := fun _ => 1 # 2; Server.nowAt := fun _ => 5000 + 250 |} in
  exists serverTime,
    Client.clockOffset (Client.on_welcome (5000 + 30) "a" serverTime Client.create) =
    inject_Z (250 - 30).
Proof.
  intros env.
  destruct (welcome_offset env Server.initial "a" Client.create 5000 30 250 eq_refl)
    as (serverTime & _ & Hoff & _).
  exists serverTime. exact Hoff.
Defined.

(** ** The basic generator: it does break ties *)

Lemma basic_generateBlocks_eq (random : nat -> Q) (block : Block) (depth : Z)
      (pos : nat) :
  Basic.generateBlocks random block depth pos =
  if depth >=? Basic.MAX_SPLIT_DEPTH then ([block], pos)
  else if (width block <? Basic.MIN_BLOCK_SIZE) && (height block <? Basic.MIN_BLOCK_SIZE)
  then ([block], pos)
  else if Qltb (random pos) (2 # 10) && (depth >? 0) then ([block], S pos)
  else Basic.choose random
         (fun b p => Basic.generateBlocks random b (depth + 1) p) block (S pos).
Proof.
  rewrite Basic.generateBlocks_equation_1.
  destruct (Z_ge_lt_dec depth Basic.MAX_SPLIT_DEPTH) as [H|H]; simpl;
    destruct (Z.geb_spec depth Basic.MAX_SPLIT_DEPTH); solve [reflexivity | lia].
Qed.

Section BasicCuts.
Variable random : nat -> Q.
Hypothesis random_unit : forall n, (0 <= random n /\ random n < 1)%Q.
Variable rec : Block -> nat -> list Block * nat.
Hypothesis rec_ok :
  forall b p, tiles (fst (rec b p)) b /\ (1 <= length (fst (rec b p)))%nat /\
              (p <= snd (rec b p))%nat.

Lemma splitAt_range_unit (origin extent : Z) (n : nat) :
  0 <= extent ->
  origin <= Partition.splitAt origin extent (random n) <= origin + extent.
Proof.
  intros He. destruct (random_unit n) as [H0 H1].
  set (r := random n) in *. unfold Partition.splitAt.
  assert (Hext : (0 <= inject_Z extent)%Q) by (rewrite <- (Zle_Qle 0); exact He).
  set (e := inject_Z extent) in *.
  assert (Hlo : (inject_Z origin <= inject_Z origin + e * (r * (4 # 10) + (3 # 10)))%Q)
    by nra.
  assert (Hhi : (inject_Z origin + e * (r * (4 # 10) + (3 # 10))
                 <= inject_Z (origin + extent))%Q)
    by (rewrite inject_Z_plus; fold e; nra).
  apply Qfloor_resp_le in Hlo, Hhi. rewrite Qfloor_Z in Hlo, Hhi. lia.
Qed.

Lemma cutHorizontally_ok block pos :
  0 <= height block ->
  tiles (fst (Basic.cutHorizontally random rec block pos)) block /\
  (2 <= length (fst (Basic.cutHorizontally random rec block pos)))%nat /\
  (S pos <= snd (Basic.cutHorizontally random rec block pos))%nat.
Proof.
  intros Hh. unfold Basic.cutHorizontally.
  pose proof (splitAt_range_unit (y block) (height block) pos Hh) as Hsp.
  set (sp := Partition.splitAt (y block) (height block) (random pos)) in *.
  match goal with |- context [rec ?a (S pos)] =>
    destruct (rec_ok a (S pos)) as (Ta & La & Pa); destruct (rec a (S pos)) as [front p1]
  end.
  match goal with |- context [rec ?b p1] =>
    destruct (rec_ok b p1) as (Tb & Lb & Pb); destruct (rec b p1) as [back p2]
  end.
  cbn [fst snd] in *. rewrite length_app. split; [| lia].
  eapply tiles_app; [exact Ta | exact Tb | |].
  - intros px py. unfold covers; simpl. lia.
  - intros (px & py & Ha & Hb). unfold covers in *; simpl in *. lia.
Qed.

Lemma cutVertically_ok block pos :
  0 <= width block ->
  tiles (fst (Basic.cutVertically random rec block pos)) block /\
  (2 <= length (fst (Basic.cutVertically random rec block pos)))%nat /\
  (S pos <= snd (Basic.cutVertically random rec block pos))%nat.
Proof.
  intros Hw. unfold Basic.cutVertically.
  pose proof (splitAt_range_unit (x block) (width block) pos Hw) as Hsp.
  set (sp := Partition.splitAt (x block) (width block) (random pos)) in *.
  match goal with |- context [rec ?a (S pos)] =>
    destruct (rec_ok a (S pos)) as (Ta & La & Pa); destruct (rec a (S pos)) as [front p1]
  end.
  match goal with |- context [rec ?b p1] =>
    destruct (rec_ok b p1) as (Tb & Lb & Pb); destruct (rec b p1) as [back p2]
  end.
  cbn [fst snd] in *. rewrite length_app. split; [| lia].
  eapply tiles_app; [exact Ta | exact Tb | |].
  - intros px py. unfold covers; simpl. lia.
  - intros (px & py & Ha & Hb). unfold covers in *; simpl in *. lia.
Qed.

Lemma choose_ok block pos :
  tiles (fst (Basic.choose random rec block pos)) block /\
  (1 <= length (fst (Basic.choose random rec block pos)))%nat /\
  (pos <= snd (Basic.choose random rec block pos))%nat.
Proof.
  unfold Basic.choose, Basic.MIN_BLOCK_SIZE.
  destruct (Z.gtb_spec (height block) (width block));
    destruct (Z.gtb_spec (height block) 300);
    destruct (Z.gtb_spec (width block) (height block));
    destruct (Z.gtb_spec (width block) 300);
    cbn [andb];
    try (split; [apply tiles_single | simpl; lia]);
    try destruct (Qltb (random pos) (1 # 2));
    try (destruct (cutHorizontally_ok block pos ltac:(lia)) as (T & L & P);
         split; [exact T | lia]);
    try (destruct (cutVertically_ok block pos ltac:(lia)) as (T & L & P);
         split; [exact T | lia]);
    try (destruct (cutHorizontally_ok block (S pos) ltac:(lia)) as (T & L & P);
         split; [exact T | lia]);
    try (destruct (cutVertically_ok block (S pos) ltac:(lia)) as (T & L & P);
         split; [exact T | lia]).
Qed.
End BasicCuts.

Lemma basic_generateBlocks_ok (random : nat -> Q) (depth : Z) :
  (forall n, (0 <= random n /\ random n < 1)%Q) ->
  forall block pos,
    tiles (fst (Basic.generateBlocks random block depth pos)) block /\
    (1 <= length (fst (Basic.generateBlocks random block depth pos)))%nat /\
    (pos <= snd (Basic.generateBlocks random block depth pos))%nat.
Proof.
  intros Hr. pattern depth. apply (depth_ind Basic.MAX_SPLIT_DEPTH); clear depth.
  - intros d Hd block pos. rewrite basic_generateBlocks_eq.
    destruct (Z.geb_spec d Basic.MAX_SPLIT_DEPTH); [| lia].
    split; [apply tiles_single | simpl; lia].
  - intros d Hd IH block pos. rewrite basic_generateBlocks_eq.
    destruct (Z.geb_spec d Basic.MAX_SPLIT_DEPTH); [lia |].
    destruct (_ && _); [split; [apply tiles_single | simpl; lia] |].
    destruct (_ && _); [split; [apply tiles_single | simpl; lia] |].
    destruct (choose_ok random Hr _ IH block (S pos)) as (T & L & P).
    split; [exact T | lia].
Qed.

(** X19.  The basic generator breaks ties.  On an exactly square block
    above its minimum (300), below its depth limit (5) and not stopped
    early, it draws one more number to pick the axis, vertical below one
    half and horizontal otherwise, then the split point, and cuts: at
    least two blocks come back and at least three numbers are used. *)
Theorem basic_tie_break (random : nat -> Q) (block : Block) (depth : Z) (pos : nat) :
  (forall n, (0 <= random n /\ random n < 1)%Q) ->
  width block = height block ->
  Basic.MIN_BLOCK_SIZE < width block ->
  depth < Basic.MAX_SPLIT_DEPTH ->
  Qltb (random pos) (2 # 10) && (depth >? 0) = false ->
  let rec := fun b p => Basic.generateBlocks random b (depth + 1) p in
  let result := Basic.generateBlocks random block depth pos in
  result = (if Qltb (random (S pos)) (1 # 2)
            then Basic.cutVertically random rec block (S (S pos))
            else Basic.cutHorizontally random rec block (S (S pos))) /\
  (2 <= length (fst result))%nat /\
  (pos + 3 <= snd result)%nat.
Proof.
  intros Hr Hsq Hmin Hd Hstop rec result. subst result.
  rewrite basic_generateBlocks_eq.
  destruct (Z.geb_spec depth Basic.MAX_SPLIT_DEPTH); [lia |].
  unfold Basic.MIN_BLOCK_SIZE in *.
  assert (E1 : (width block <? 300) && (height block <? 300) = false)
    by (apply andb_false_iff; left; apply Z.ltb_ge; lia).
  rewrite E1, Hstop. unfold Basic.choose, Basic.MIN_BLOCK_SIZE.
  assert (E2 : (height block >? width block) = false)
    by (rewrite Z.gtb_ltb; apply Z.ltb_ge; lia).
  assert (E3 : (width block >? height block) = false)
    by (rewrite Z.gtb_ltb; apply Z.ltb_ge; lia).
  assert (E4 : (width block >? 300) = true)
    by (rewrite Z.gtb_ltb; apply Z.ltb_lt; lia).
  assert (E5 : (height block >? 300) = true)
    by (rewrite Z.gtb_ltb; apply Z.ltb_lt; lia).
  rewrite E2, E3, E4, E5. cbn [andb]. fold rec. split; [reflexivity |].
  assert (Hrec : forall b p,
             tiles (fst (rec b p)) b /\ (1 <= length (fst (rec b p)))%nat /\
             (p <= snd (rec b p))%nat)
    by (intros b p; apply basic_generateBlocks_ok; exact Hr).
  destruct (Qltb (random (S pos)) (1 # 2)).
  - destruct (cutVertically_ok random Hr rec Hrec block (S (S pos)) ltac:(lia))
      as (_ & L & P). split; lia.
  - destruct (cutHorizontally_ok random Hr rec Hrec block (S (S pos)) ltac:(lia))
      as (_ & L & P). split; lia.
Qed.

Lemma basic_tie_break_witness :
  let random := fun _ : nat => 1 # 2 in
  let square := {| x := 0; y := 0; width := 800; height := 800 |} in
  (2 <= length (fst (Basic.generateBlocks random square 0 0)))%nat.
Proof.
  intros random square.
  apply (basic_tie_break random square 0 0);
    solve [reflexivity | vm_compute; reflexivity
          | intros n; split; [discriminate | reflexivity]].
Defined.



(** ** The command line of the configurable generator *)



(** ** The page's tone generator: its timer *)


(** ** The client's connection *)

(** X23.  Every "connect" event, a reconnection as well, sends a join and
    then a sync request stamped with the local time on the socket, and
    starts one more periodic sync; no method and no event ever stops one:
    after any history there are as many periodic syncs as there were
    "connect" events. *)
Theorem sync_timers_accumulate (steps : list Socket.Step) :
  let c := fold_left Socket.step steps Socket.create in
  Socket.syncTimers c = length (List.filter Socket.is_connect_event steps) /\
  forall now userAgent tr,
    Socket.socket c = Some tr ->
    Socket.socket (Socket.on_connect now userAgent c) =
      Some {| Socket.connected := true;
              Socket.sent := Socket.sent tr ++
                             [Socket.JoinEvent userAgent;
                              Socket.SyncRequestEvent now] |}.
Proof.
  intros c. subst c. split.
  - induction steps as [|s steps IH] using rev_ind; [reflexivity |].
    rewrite fold_left_app, List.filter_app, length_app. cbn [fold_left].
    set (c := fold_left Socket.step steps Socket.create) in *.
    assert (Hemit : forall e d, Socket.syncTimers (Socket.emit e d) = Socket.syncTimers d)
      by (intros e d; unfold Socket.emit; destruct (Socket.socket d); reflexivity).
    assert (Hsync : forall n d,
               Socket.syncTimers (Socket.requestTimeSync n d) = Socket.syncTimers d)
      by (intros n d; unfold Socket.requestTimeSync;
          destruct (Socket.socket d); [apply Hemit | reflexivity]).
    assert (Hnote : forall b d, Socket.syncTimers (Socket.notify b d) = Socket.syncTimers d)
      by (intros b d; unfold Socket.notify;
          destruct (Socket.hasConnectionCallback d); reflexivity).
    assert (Hset : forall b d,
               Socket.syncTimers (Socket.setConnected b d) = Socket.syncTimers d)
      by (intros b d; unfold Socket.setConnected; destruct (Socket.socket d); reflexivity).
    destruct s; cbn [Socket.step List.filter Socket.is_connect_event length].
    + unfold Socket.connect. cbn [Socket.syncTimers]. lia.
    + unfold Socket.onConnection. cbn [Socket.syncTimers]. lia.
    + unfold Socket.disconnect. destruct (Socket.socket c); cbn [Socket.syncTimers]; lia.
    + unfold Socket.on_connect, Socket.addSyncTimer. cbn [Socket.syncTimers].
      rewrite Hsync, Hemit, Hnote. unfold Socket.log. cbn [Socket.syncTimers].
      rewrite Hset. lia.
    + unfold Socket.on_disconnect. rewrite Hnote. unfold Socket.log.
      cbn [Socket.syncTimers]. rewrite Hset. lia.
    + rewrite Hsync. lia.
  - intros now userAgent tr Htr.
    unfold Socket.on_connect, Socket.requestTimeSync, Socket.emit, Socket.notify,
      Socket.log, Socket.setConnected, Socket.addSyncTimer.
    rewrite Htr. cbn [Socket.socket Socket.hasConnectionCallback].
    destruct (Socket.hasConnectionCallback _);
      cbn [Socket.socket Socket.connected Socket.sent];
      rewrite <- app_assoc; reflexivity.
Qed.

(** X24.  After [disconnect()] the object holds no socket: [isConnected()]
    is false, and the periodic syncs that keep firing do nothing at all,
    the connection stays exactly as [disconnect()] left it. *)
Theorem disconnected_is_inert (c : Socket.Connection) (fires : list Socket.Step) :
  forallb Socket.is_timer fires = true ->
  let c' := Socket.disconnect c in
  Socket.isConnected c' = false /\
  Socket.socket c' = None /\
  fold_left Socket.step fires c' = c'.
Proof.
  intros Hfires c'.
  assert (Hnone : Socket.socket c' = None)
    by (subst c'; unfold Socket.disconnect; destruct (Socket.socket c) eqn:E;
        [reflexivity | exact E]).
  split; [unfold Socket.isConnected; rewrite Hnone; reflexivity |].
  split; [exact Hnone |].
  clearbody c'. induction fires as [|s fires IH]; [reflexivity |].
  cbn [forallb] in Hfires. apply andb_true_iff in Hfires. destruct Hfires as [Hs Hrest].
  destruct s; try discriminate Hs.
  cbn [fold_left Socket.step]. unfold Socket.requestTimeSync. rewrite Hnone.
  apply IH. exact Hrest.
Qed.

Lemma disconnected_is_inert_witness :
  let c := Socket.on_connect 1000 "ua" (Socket.connect Socket.create) in
  fold_left Socket.step [Socket.SyncTimerFires 31000; Socket.SyncTimerFires 61000]
            (Socket.disconnect c) = Socket.disconnect c.
Proof.
  intros c.
  apply (disconnected_is_inert c
           [Socket.SyncTimerFires 31000; Socket.SyncTimerFires 61000]).
  reflexivity.
Defined.

(** ** The renderer at the ends of the colour chance *)

Lemma Fills_extremes (colorChance : Q) (blocks : list Block) g fills g' :
  Fills colorChance blocks g fills g' -> valid g ->
  ((colorChance <= 0)%Q -> colored fills = 0%nat) /\
  ((1 <= colorChance)%Q -> colored fills = length blocks).
Proof.
  induction 1 as [g | b bs g r1 g1 r2 g2 c fills g' E1 Hlt E2 Hpal HF IH
                    | b bs g r1 g1 fills g' E1 Hge HF IH]; intros Hg.
  - split; reflexivity.
  - pose proof (next_unit_interval g Hg) as [H0 H1].
    pose proof (valid_next g Hg) as Hg1.
    rewrite E1 in H0, H1, Hg1. cbn [fst snd] in H0, H1, Hg1.
    pose proof (next_unit_interval g1 Hg1) as [K0 K1].
    pose proof (valid_next g1 Hg1) as Hg2.
    rewrite E2 in K0, K1, Hg2. cbn [fst snd] in K0, K1, Hg2.
    destruct (palette_index r2 K0 K1) as (c' & Hpal' & _ & Hne).
    rewrite Hpal in Hpal'. injection Hpal' as <-.
    destruct (IH Hg2) as [IH0 IH1]. split.
    + intros Hc. lra.
    + intros Hc. unfold colored in *. cbn [List.filter is_colored].
      rewrite Hne. cbn [negb length]. rewrite IH1 by exact Hc. reflexivity.
  - pose proof (next_unit_interval g Hg) as [H0 H1].
    pose proof (valid_next g Hg) as Hg1.
    rewrite E1 in H0, H1, Hg1. cbn [fst snd] in H0, H1, Hg1.
    destruct (IH Hg1) as [IH0 IH1]. split.
    + intros Hc. unfold colored in *. cbn [List.filter is_colored].
      change (String.eqb Render.BACKGROUND_COLOR Render.BACKGROUND_COLOR) with true.
      cbn [negb]. apply IH0. exact Hc.
    + intros Hc. lra.
Qed.


